(** * Sanipro: the filter functions, the command registry and the CLI entry point

    A shallow embedding of
      - [sanipro/filters.py]            ([mask], [exclude], [collect_same_prompt],
                                         [sort], [unique]),
      - [sanipro/filters/exclude.py]    ([ExcludeCommand.execute]),
      - [sanipro/commandline/commands.py] ([Commands.get_pipeline]),
      - [sanipro/cli.py]                ([app]),
    followed by the properties of these functions.

    Conventions.  A Python [list] is a Rocq [list]; a loop that appends to an
    accumulator is a [fold_left] whose accumulator grows on the right.  A
    Python [dict] keeps its keys in insertion order and iterating over [items()]
    relies on it, so a dict is an association list with unique keys
    ([PyDict]).  A raised exception is the [Raise] case of [result].  A token's
    strength is a Python float that the filters only copy and compare: a
    [pyfloat] is the rational number a finite float denotes, an infinity, or
    NaN, with the comparisons of Python, which are all false on NaN. *)

From Stdlib Require Import List String Ascii Bool ZArith QArith Lia Lqa.
From Stdlib Require Import Permutation Sorted.
Import ListNotations.

Local Open Scope string_scope.
Local Open Scope list_scope.

(* ================================================================= *)
(** ** Python values *)

(** Exceptions that the embedded code raises. *)
Inductive exn : Type :=
| NotImplementedError (msg : string)
| KeyError (key : string)
| IndexError
| ConfigurationError (msg : string).

Inductive result (A : Type) : Type :=
| Ok (a : A)
| Raise (e : exn).

Arguments Ok {A} a.
Arguments Raise {A} e.

(** [sub in s] on two Python strings: [sub] occurs in [s] as a contiguous
    run of characters; the empty string occurs in every string. *)
Fixpoint str_in (sub s : string) : bool :=
  String.prefix sub s ||
  match s with
  | EmptyString => false
  | String _ s' => str_in sub s'
  end.

(** [x in xs] on a Python sequence of strings: some element equals [x]. *)
Definition seq_in (x : string) (xs : list string) : bool :=
  existsb (String.eqb x) xs.

(** Python's insertion-ordered [dict] with string keys. *)
Module PyDict.

Definition dict (V : Type) : Type := list (string * V).

Definition empty {V : Type} : dict V := [].

(** [d[k]], [None] standing for the [KeyError]. *)
Fixpoint get {V : Type} (d : dict V) (k : string) : option V :=
  match d with
  | [] => None
  | (k', v) :: d' => if String.eqb k' k then Some v else get d' k
  end.

(** [d[k] = v]: a present key keeps its position, a new key goes last. *)
Fixpoint set {V : Type} (d : dict V) (k : string) (v : V) : dict V :=
  match d with
  | [] => [(k, v)]
  | (k', v') :: d' =>
      if String.eqb k' k then (k', v) :: d' else (k', v') :: set d' k v
  end.

(** [d.items()], in insertion order. *)
Definition items {V : Type} (d : dict V) : list (string * V) := d.

(** [dict(pairs)]: the pairs are inserted from left to right, so of two
    pairs with one key the later value wins. *)
Definition of_pairs {V : Type} (pairs : list (string * V)) : dict V :=
  fold_left (fun d kv => set d (fst kv) (snd kv)) pairs empty.

End PyDict.

(** [zip(xs, ys)] stops at the end of the shorter sequence. *)
Definition zip {A B : Type} (xs : list A) (ys : list B) : list (A * B) :=
  combine xs ys.

(* ================================================================= *)
(** ** Tokens *)

(** A Python float: a finite number, an infinity or NaN. *)
Inductive pyfloat : Type :=
| Finite (q : Q)
| PosInf
| NegInf
| NaN.

Coercion Finite : Q >-> pyfloat.

(** [a < b] on floats: false as soon as one of the two is NaN. *)
Definition float_lt (a b : pyfloat) : bool :=
  match a, b with
  | NaN, _ | _, NaN => false
  | Finite x, Finite y => negb (Qle_bool y x)
  | NegInf, NegInf => false
  | NegInf, _ => true
  | _, NegInf => false
  | PosInf, _ => false
  | Finite _, PosInf => true
  end.

(** [a == b] on floats: NaN equals nothing, itself included. *)
Definition float_eq (a b : pyfloat) : bool :=
  match a, b with
  | Finite x, Finite y => Qeq_bool x y
  | PosInf, PosInf => true
  | NegInf, NegInf => true
  | _, _ => false
  end.

(** [a <= b] on floats. *)
Definition float_le (a b : pyfloat) : bool := float_lt a b || float_eq a b.

Definition is_nan (a : pyfloat) : bool :=
  match a with
  | NaN => true
  | _ => false
  end.

Record Token : Type := mkToken {
  name : string;
  strength : pyfloat
}.

Arguments mkToken name%_string strength%_Q.

(** Modelled from the spec: [TokenInterface.replace] ([sanipro/abc.py] is not
    among the sources).  The spec has a token immutable, with a modified copy
    that carries the replaced name and the weight preserved. *)
Definition replace (t : Token) (new_name : string) : Token :=
  mkToken new_name (strength t).

(** [a < b] on strengths, the only comparison [list.sort] performs. *)
Definition strength_lt (a b : Token) : bool :=
  float_lt (strength a) (strength b).

(* ================================================================= *)
(** ** [list.sort(key=lambda x: x.strength, reverse=...)]

    Python's [list.sort] compares keys with [<] only, is stable, and leaves
    a list in which no key is [<] the key before it as it is: such a list is
    one ascending run.  With [reverse=True] it reverses the list, sorts it
    ascending and reverses the result, which keeps elements with equal keys
    in their original order.

    The model is the stable insertion sort that moves each element towards
    the front, past the elements that are strictly greater.  Where [<] orders
    the keys totally, that is where no key is NaN, it returns what every
    stable sort returns; and a list without a descent, one that holds NaN
    included, it returns unchanged, as [list.sort] does.  On other lists
    that hold NaN the result of [list.sort] depends on how the interpreter
    merges runs: the properties of the order below assume that no strength is
    NaN, and the ones stated for NaN are about lists without a descent. *)

(** The sorted part is kept last element first: [x] passes the elements that
    are strictly greater and stops behind the first one that is not. *)
Fixpoint insert_sorted (x : Token) (sorted_rev : list Token) : list Token :=
  match sorted_rev with
  | [] => [x]
  | y :: rest =>
      if strength_lt x y then y :: insert_sorted x rest else x :: y :: rest
  end.

Definition stable_sort (l : list Token) : list Token :=
  rev (fold_left (fun sorted_rev x => insert_sorted x sorted_rev) l []).

Definition list_sort (reverse : bool) (l : list Token) : list Token :=
  if reverse then rev (stable_sort (rev l)) else stable_sort l.

(** [v.pop(0)]: the first element and the rest; [IndexError] on an empty list. *)
Definition pop0 {A : Type} (v : list A) : result (A * list A) :=
  match v with
  | [] => Raise IndexError
  | x :: v' => Ok (x, v')
  end.

(* ================================================================= *)
(** ** [sanipro/filters.py] *)

Module filters.

(** The inner [for excluded in excludes] of [mask].  [Some] is the list
    after the [break]; [None] means the loop ran to its end, so that the
    [else] clause of the [for] runs. *)
Fixpoint mask_inner (prompt : Token) (replace_to : string)
         (excludes : list string) (filtered_prompts : list Token)
  : option (list Token) :=
  match excludes with
  | [] => None
  | excluded :: rest =>
      if str_in excluded (name prompt)
      then Some (filtered_prompts ++ [replace prompt replace_to])
      else mask_inner prompt replace_to rest filtered_prompts
  end.

Definition mask (prompts : list Token) (excludes : list string)
           (replace_to : string) : list Token :=
  fold_left
    (fun filtered_prompts prompt =>
       match mask_inner prompt replace_to excludes filtered_prompts with
       | Some after_break => after_break
       | None => filtered_prompts ++ [prompt]
       end)
    prompts [].

(** The inner loop of [exclude]: the token is appended, and the loop left,
    at the first [excluded] that is not in its name. *)
Fixpoint exclude_inner (prompt : Token) (excludes : list string)
         (filtered_prompts : list Token) : option (list Token) :=
  match excludes with
  | [] => None
  | excluded :: rest =>
      if negb (str_in excluded (name prompt))
      then Some (filtered_prompts ++ [prompt])
      else exclude_inner prompt rest filtered_prompts
  end.

Definition exclude (prompts : list Token) (excludes : list string)
  : list Token :=
  fold_left
    (fun filtered_prompts prompt =>
       match exclude_inner prompt excludes filtered_prompts with
       | Some after_break => after_break
       | None => filtered_prompts  (* else: continue *)
       end)
    prompts [].

(** The test [prompt.name in u] and the lookup [u[prompt.name]] are the one
    [PyDict.get]; appending to the list found under a key updates the dict. *)
Definition collect_same_prompt (prompts : list Token)
  : PyDict.dict (list Token) :=
  fold_left
    (fun u prompt =>
       match PyDict.get u (name prompt) with
       | Some v => PyDict.set u (name prompt) (v ++ [prompt])
       | None => PyDict.set u (name prompt) [prompt]
       end)
    prompts PyDict.empty.

Definition sort (prompts : list Token) (reverse : bool) : list Token :=
  let u := collect_same_prompt prompts in
  fold_left
    (fun prompts kv =>
       let v := list_sort reverse (snd kv) in
       fold_left (fun prompts item => prompts ++ [item]) v prompts)
    (PyDict.items u) [].

(** One round of the loop of [unique]. *)
Definition unique_step (reverse : bool) (prompts : result (list Token))
           (kv : string * list Token) : result (list Token) :=
  match prompts with
  | Raise e => Raise e
  | Ok prompts =>
      let v := list_sort reverse (snd kv) in
      match pop0 v with
      | Raise e => Raise e
      | Ok (first, _) => Ok (prompts ++ [first])
      end
  end.

Definition unique (prompts : list Token) (reverse : bool)
  : result (list Token) :=
  let u := collect_same_prompt prompts in
  fold_left (unique_step reverse) (PyDict.items u) (Ok []).

End filters.

(* ================================================================= *)
(** ** [sanipro/filters/exclude.py] *)

Module ExcludeCommand.

(** [[token for token in prompt if token.name not in self.excludes]] *)
Definition execute (excludes : list string) (prompt : list Token)
  : list Token :=
  List.filter (fun token => negb (seq_in (name token) excludes)) prompt.

End ExcludeCommand.

(* ================================================================= *)
(** ** Logging and exceptions threaded through the configuration code *)

Inductive LogRecord : Type :=
| log_warning (msg : string)
| log_exception (e : exn).

(** A computation that writes log records and either returns or raises. *)
Definition M (A : Type) : Type := (list LogRecord * result A)%type.

Definition ret {A : Type} (a : A) : M A := ([], Ok a).

Definition raise {A : Type} (e : exn) : M A := ([], Raise e).

Definition logger_warning (msg : string) : M unit := ([log_warning msg], Ok tt).

Definition lift {A : Type} (r : result A) : M A := ([], r).

Definition bind {A B : Type} (m : M A) (k : A -> M B) : M B :=
  match m with
  | (l1, Raise e) => (l1, Raise e)
  | (l1, Ok a) => let (l2, r) := k a in (l1 ++ l2, r)
  end.

Notation "x <- m ;; k" := (bind m (fun x => k))
  (at level 61, m at next level, right associativity).
Notation "m ;;; k" := (bind m (fun _ => k))
  (at level 61, right associativity).

(* ================================================================= *)
(** ** Commands and pipelines *)

(** The classes listed in [Commands.command_classes]. *)
Inductive CommandClass : Type :=
| ExcludeCommand
| MaskCommand
| RandomCommand
| ResetCommand
| RoundUpCommand
| SimilarCommand
| SortAllCommand
| SortCommand
| UniqueCommand.

(** Modelled from the spec: the instances of the command classes (of the
    filter modules only [filters/exclude.py] is among the sources).  The spec
    has a command as a tagged union with one variant per filter that holds the
    parameters bound by its constructor. *)
Inductive Command : Type :=
| Exclude (excludes : list string)
| Mask (excludes : list string) (replace_to : string)
| Random (seed : option Z)
| Reset (value : option Q)
| RoundUp (ndigits : Z)
| Similar (method : option string) (reverse : bool)
| SortAll (method : option string) (reverse : bool)
| Sort (reverse : bool)
| Unique (reverse : bool).

Definition class_of (c : Command) : CommandClass :=
  match c with
  | Exclude _ => ExcludeCommand
  | Mask _ _ => MaskCommand
  | Random _ => RandomCommand
  | Reset _ => ResetCommand
  | RoundUp _ => RoundUpCommand
  | Similar _ _ => SimilarCommand
  | SortAll _ _ => SortAllCommand
  | Sort _ => SortCommand
  | Unique _ => UniqueCommand
  end.

(** Modelled from the spec: the constructor of [RoundUpCommand]
    ([filters/roundup.py] is not among the sources).  The spec has a negative
    precision rejected as a configuration error, and the core re-validating
    that the rounding precision is at least 0. *)
Definition RoundUpCommand_init (ndigits : Z) : result Command :=
  if (ndigits <? 0)%Z
  then Raise (ConfigurationError "negative rounding precision")
  else Ok (RoundUp ndigits).

(** Modelled from the spec: [sanipro/common.py] is not among the sources.  The
    spec has a delimiter policy as a pair of strings, and a pipeline as a
    parser variant, a delimiter policy and an ordered list of commands to which
    [append_command] adds at the end; a pipeline is composed of zero or one
    filter and the rounding, so a new one has no command. *)
Module common.

Record Delimiter : Type := mkDelimiter {
  sep_input : string;
  sep_output : string
}.

Inductive PipelineClass : Type := PromptPipelineV1 | PromptPipelineV2.

Record PromptPipeline : Type := mkPromptPipeline {
  pipeline_class : PipelineClass;
  delimiter : Delimiter;
  commands : list Command
}.

Definition create_pipeline (delim : Delimiter) (cls : PipelineClass)
  : PromptPipeline :=
  mkPromptPipeline cls delim [].

Definition append_command (pipeline : PromptPipeline) (cmd : Command)
  : PromptPipeline :=
  mkPromptPipeline (pipeline_class pipeline) (delimiter pipeline)
                   (commands pipeline ++ [cmd]).

End common.

(* ================================================================= *)
(** ** [sanipro/commandline/commands.py] *)

Module commands.

(** The attributes of [Commands] that [get_pipeline] reads. *)
Record Commands : Type := mkCommands {
  mask : list string;
  exclude : list string;
  input_delimiter : string;
  output_delimiter : string;
  roundup : Z;
  replace_to : string;
  filter : option string;
  use_parser_v2 : bool;
  reverse : bool;
  seed : option Z;
  value : option Q;
  similar_method : option string;
  sort_all_method : option string
}.

Definition command_classes : list CommandClass :=
  [ ExcludeCommand; MaskCommand; RandomCommand; ResetCommand; RoundUpCommand;
    SimilarCommand; SortAllCommand; SortCommand; UniqueCommand ].

Definition get_delimiter (self : Commands) : common.Delimiter :=
  common.mkDelimiter (input_delimiter self) (output_delimiter self).

Definition get_pipeline_from (self : Commands) (use_parser_v2 : bool)
  : common.PromptPipeline :=
  let delim := get_delimiter self in
  if negb use_parser_v2
  then common.create_pipeline delim common.PromptPipelineV1
  else common.create_pipeline delim common.PromptPipelineV2.

(** The tuple of closures of [get_pipeline]; none is for [RoundUpCommand]. *)
Definition command_funcs (self : Commands) : list (unit -> Command) :=
  [ (fun _ => Exclude (exclude self));
    (fun _ => Mask (mask self) (replace_to self));
    (fun _ => Random (seed self));
    (fun _ => Reset (value self));
    (fun _ => Similar (similar_method self) (reverse self));
    (fun _ => SortAll (sort_all_method self) (reverse self));
    (fun _ => Sort (reverse self));
    (fun _ => Unique (reverse self)) ].

(** [self.filter in command_ids]; [None] equals no identifier. *)
Definition filter_in (f : option string) (command_ids : list string) : bool :=
  match f with
  | None => false
  | Some f => seq_in f command_ids
  end.

(** [f"{self.filter}"] *)
Definition format_filter (f : option string) : string :=
  match f with
  | Some f => f
  | None => "None"
  end.

Section WithCommandIds.

(** The attribute [command_id] of each command class.  The identifiers are
    declared with the classes, in modules that are not among the sources,
    so the configuration code is embedded over an arbitrary assignment. *)
Variable command_id : CommandClass -> string.

Definition command_ids : list string := map command_id command_classes.

Definition command_map (self : Commands) : PyDict.dict (unit -> Command) :=
  PyDict.of_pairs (zip command_ids (command_funcs self)).

Definition get_pipeline (self : Commands) : M common.PromptPipeline :=
  (if use_parser_v2 self then
     if filter_in (filter self) command_ids then
       raise (NotImplementedError
                ("the '" ++ format_filter (filter self)
                 ++ "' command is not available " ++ "when using parse_v2."))
     else logger_warning "using parser_v2."
   else ret tt) ;;;
  let pipeline := get_pipeline_from self (use_parser_v2 self) in
  (* always round *)
  round <- lift (RoundUpCommand_init (roundup self)) ;;
  let pipeline := common.append_command pipeline round in
  match filter self with
  | Some f =>
      match PyDict.get (command_map self) f with
      | Some lambd => ret (common.append_command pipeline (lambd tt))
      | None => raise (KeyError f)
      end
  | None => ret pipeline
  end.

End WithCommandIds.

End commands.

(** An assignment of identifiers, used to evaluate the configuration code on
    concrete command lines. *)
Definition sample_command_id (c : CommandClass) : string :=
  match c with
  | ExcludeCommand => "exclude"
  | MaskCommand => "mask"
  | RandomCommand => "random"
  | ResetCommand => "reset"
  | RoundUpCommand => "roundup"
  | SimilarCommand => "similar"
  | SortAllCommand => "sort-all"
  | SortCommand => "sort"
  | UniqueCommand => "unique"
  end.

(** The class defaults of [Commands], with a filter and a parser chosen. *)
Definition sample_args (f : option string) (v2 : bool) : commands.Commands :=
  commands.mkCommands [] [] "," ", " 2 "" f v2 false None None None None.

(* ================================================================= *)
(** ** [sanipro/cli.py] *)

Module cli.

(** What a Python block can raise: an instance of [Exception], or one of
    the exceptions that derive from [BaseException] only. *)
Inductive raised : Type :=
| Exception (e : exn)
| SystemExit (code : Z)
| KeyboardInterrupt.

(** How a block ends. *)
Inductive outcome : Type :=
| Completes
| Raises (r : raised).

(** [sys.exit(code)] *)
Definition sys_exit (code : Z) : outcome := Raises (SystemExit code).

(** [try: body / except Exception as e: handler(e)]: the handler runs for
    an instance of [Exception] and for nothing else. *)
Definition try_except_Exception (body : list LogRecord * outcome)
           (handler : exn -> list LogRecord * outcome)
  : list LogRecord * outcome :=
  match body with
  | (l, Raises (Exception e)) => let (l', o) := handler e in (l ++ l', o)
  | other => other
  end.

(** [try: body / finally: final]: the [finally] block always runs, and an
    exception it raises replaces whatever the body left pending. *)
Definition try_finally (body : list LogRecord * outcome) (final : outcome)
  : list LogRecord * outcome :=
  match final with
  | Raises r => (fst body, Raises r)
  | Completes => body
  end.

(** [logger.exception(f"error: {e}")] *)
Definition logger_exception (e : exn) : list LogRecord * outcome :=
  ([log_exception e], Completes).

(** [app], over the way the statements of its [try] block end: they call
    into modules that are not among the sources. *)
Definition app (body : list LogRecord * outcome) : list LogRecord * outcome :=
  try_finally (try_except_Exception body logger_exception) (sys_exit 1).

(** The exit status of the process when [app] is its entry point. *)
Definition exit_status (o : outcome) : Z :=
  match o with
  | Completes => 0
  | Raises (SystemExit code) => code
  | Raises _ => 1
  end.

End cli.

(* ================================================================= *)
(** ** Notions used to state the properties *)

(** [sub] occurs in [s]. *)
Definition is_substring (sub s : string) : Prop :=
  exists before after, s = (before ++ sub ++ after)%string.

(** The tokens of a sequence that carry the name [n], in their order. *)
Definition group_of (n : string) (prompts : list Token) : list Token :=
  List.filter (fun t => String.eqb (name t) n) prompts.

(** The distinct elements of a list, each at its first occurrence. *)
Fixpoint first_seen (l : list string) : list string :=
  match l with
  | [] => []
  | x :: l' => x :: List.filter (fun y => negb (String.eqb y x)) (first_seen l')
  end.

(** The order a sorted group is in: ascending strengths, or descending ones
    when [reverse] is set. *)
Definition in_order (reverse : bool) (a b : Token) : Prop :=
  if reverse then float_le (strength b) (strength a) = true
  else float_le (strength a) (strength b) = true.

(** [a] is strictly better than [b]: weaker, or stronger when [reverse] is set. *)
Definition strictly_before (reverse : bool) (a b : Token) : Prop :=
  if reverse then float_lt (strength b) (strength a) = true
  else float_lt (strength a) (strength b) = true.

(** The tokens of strength [q]. *)
Definition has_strength (q : pyfloat) (t : Token) : bool :=
  float_eq (strength t) q.

(** No token of the sequence has the strength NaN. *)
Definition no_nan (prompts : list Token) : Prop :=
  Forall (fun t => is_nan (strength t) = false) prompts.

(** Three tokens of one name, the second with the strength NaN: no strength
    is [<] the one before it. *)
Definition tokens_with_nan : list Token :=
  [mkToken "a" 2.0; mkToken "a" NaN; mkToken "a" 1.0].

(** The rounding command is the last command of a list. *)
Definition rounding_last (cs : list Command) : Prop :=
  exists front ndigits, cs = front ++ [RoundUp ndigits].

(** The class of the command that the closure registered under the identifier
    of a class builds, if a closure is registered under it.  The tuple of
    closures has no entry for [RoundUpCommand], so from that class on every
    identifier is paired with the closure of the next class. *)
Definition registered_class (c : CommandClass) : option CommandClass :=
  match c with
  | ExcludeCommand => Some ExcludeCommand
  | MaskCommand => Some MaskCommand
  | RandomCommand => Some RandomCommand
  | ResetCommand => Some ResetCommand
  | RoundUpCommand => Some SimilarCommand
  | SimilarCommand => Some SortAllCommand
  | SortAllCommand => Some SortCommand
  | SortCommand => Some UniqueCommand
  | UniqueCommand => None
  end.

(** The tokens of the scenarios of the spec. *)
Definition white_hair_thighhighs : list Token :=
  [mkToken "white hair" 1.2; mkToken "thighhighs" 1.0].

(* ================================================================= *)
(** * Properties *)

(** ** Strings and loops *)

Lemma prefix_app (sub s : string) :
  String.prefix sub s = true <-> exists after, s = (sub ++ after)%string.
Proof.
  revert s; induction sub as [|c sub IH]; intros s; simpl.
  - split; [intros _; now exists s | now destruct s].
  - destruct s as [|d s].
    + split; [discriminate | intros [after H]; discriminate].
    + simpl. destruct (Ascii.ascii_dec c d) as [->|Hcd].
      * rewrite IH. split; intros [after H]; exists after.
        -- now rewrite H.
        -- now injection H.
      * split; [discriminate|].
        intros [after H]. injection H as H1 H2. now subst.
Qed.

Lemma str_in_is_substring (sub s : string) :
  str_in sub s = true <-> is_substring sub s.
Proof.
  unfold is_substring.
  induction s as [|c s IH]; cbn [str_in].
  - rewrite orb_false_r, prefix_app. split.
    + intros [after H]. now exists "", after.
    + intros [before [after H]]. destruct before; [now exists after | discriminate].
  - rewrite orb_true_iff, prefix_app, IH. split.
    + intros [[after H] | [before [after H]]].
      * now exists "", after.
      * exists (String c before), after. simpl. now rewrite H.
    + intros [[|d before] [after H]].
      * left. now exists after.
      * right. injection H as _ H. now exists before, after.
Qed.

Lemma seq_in_In (x : string) (xs : list string) :
  seq_in x xs = true <-> In x xs.
Proof.
  unfold seq_in. rewrite existsb_exists. split.
  - intros [y [Hy Heq]]. apply String.eqb_eq in Heq. now subst.
  - intros H. exists x. split; [assumption | apply String.eqb_refl].
Qed.

Lemma fold_left_append_if {A : Type} (keep : A -> bool) (l acc : list A) :
  fold_left (fun acc x => if keep x then acc ++ [x] else acc) l acc
  = acc ++ List.filter keep l.
Proof.
  revert acc; induction l as [|x l IH]; intros acc; simpl.
  - now rewrite app_nil_r.
  - rewrite IH. destruct (keep x); [now rewrite <- app_assoc | reflexivity].
Qed.

Lemma fold_left_ext_eq {A B : Type} (f g : A -> B -> A) (l : list B) (a : A) :
  (forall a b, f a b = g a b) -> fold_left f l a = fold_left g l a.
Proof.
  intros H; revert a; induction l as [|x l IH]; intros a; simpl;
    [reflexivity | now rewrite H, IH].
Qed.

Lemma fold_left_append_map {A B : Type} (f : A -> B) (l : list A) (acc : list B) :
  fold_left (fun acc x => acc ++ [f x]) l acc = acc ++ map f l.
Proof.
  revert acc; induction l as [|x l IH]; intros acc; simpl.
  - now rewrite app_nil_r.
  - now rewrite IH, <- app_assoc.
Qed.

(** ** [filters.exclude], [filters.mask] and [ExcludeCommand.execute] *)

Lemma exclude_inner_all (prompt : Token) (excludes : list string) (acc : list Token) :
  filters.exclude_inner prompt excludes acc
  = if forallb (fun e => str_in e (name prompt)) excludes
    then None else Some (acc ++ [prompt]).
Proof.
  induction excludes as [|e excludes IH]; simpl; [reflexivity|].
  destruct (str_in e (name prompt)); simpl; [exact IH | reflexivity].
Qed.

Lemma exclude_as_filter (prompts : list Token) (excludes : list string) :
  filters.exclude prompts excludes
  = List.filter
      (fun p => negb (forallb (fun e => str_in e (name p)) excludes)) prompts.
Proof.
  unfold filters.exclude.
  rewrite <- (app_nil_l (List.filter _ prompts)), <- fold_left_append_if.
  apply fold_left_ext_eq. intros acc p. rewrite exclude_inner_all.
  now destruct (forallb _ excludes).
Qed.

Lemma mask_inner_any (prompt : Token) (replace_to : string)
      (excludes : list string) (acc : list Token) :
  filters.mask_inner prompt replace_to excludes acc
  = if existsb (fun e => str_in e (name prompt)) excludes
    then Some (acc ++ [replace prompt replace_to]) else None.
Proof.
  induction excludes as [|e excludes IH]; simpl; [reflexivity|].
  destruct (str_in e (name prompt)); simpl; [reflexivity | exact IH].
Qed.

Lemma mask_as_map (prompts : list Token) (excludes : list string) (replace_to : string) :
  filters.mask prompts excludes replace_to
  = map (fun p => if existsb (fun e => str_in e (name p)) excludes
                  then replace p replace_to else p) prompts.
Proof.
  unfold filters.mask.
  rewrite <- (app_nil_l (map _ prompts)), <- fold_left_append_map.
  apply fold_left_ext_eq. intros acc p. rewrite mask_inner_any.
  now destruct (existsb _ excludes).
Qed.

Lemma execute_empty (prompt : list Token) :
  ExcludeCommand.execute [] prompt = prompt.
Proof.
  unfold ExcludeCommand.execute. induction prompt as [|t prompt IH];
    simpl in *; [reflexivity | now f_equal].
Qed.

(** C2.  On [("white hair",1.2), ("thighhighs",1.0)] with the exclude list
    ["white"], [filters.mask] with the replacement "%%%" returns
    [("%%%",1.2), ("thighhighs",1.0)] and [filters.exclude] returns
    [("thighhighs",1.0)]; [ExcludeCommand.execute], which compares whole names,
    returns both tokens and so not [("thighhighs",1.0)]. *)
Theorem mask_exclude_white_hair :
  filters.mask white_hair_thighhighs ["white"] "%%%"
    = [mkToken "%%%" 1.2; mkToken "thighhighs" 1.0]
  /\ filters.exclude white_hair_thighhighs ["white"]
    = [mkToken "thighhighs" 1.0]
  /\ ExcludeCommand.execute ["white"] white_hair_thighhighs
    = white_hair_thighhighs
  /\ ExcludeCommand.execute ["white"] white_hair_thighhighs
    <> [mkToken "thighhighs" 1.0].
Proof.
  repeat split; try reflexivity.
  vm_compute. discriminate.
Qed.

(** C3.  With an empty exclude list [ExcludeCommand.execute] returns every
    token sequence unchanged, while [filters.exclude] returns the empty
    sequence, which is not the input as soon as the input has a token. *)
Theorem exclude_empty_set :
  (forall prompt, ExcludeCommand.execute [] prompt = prompt)
  /\ (forall prompts, filters.exclude prompts [] = [])
  /\ filters.exclude white_hair_thighhighs [] <> white_hair_thighhighs.
Proof.
  split; [exact execute_empty | split].
  - intros prompts. rewrite exclude_as_filter. simpl.
    induction prompts as [|t prompts IH]; simpl; [reflexivity | exact IH].
  - vm_compute. discriminate.
Qed.

(** C9.  For a non-empty exclude list, [filters.exclude] keeps, in their
    order, the tokens for which some exclude string is not a substring of the
    name: a token of the input is removed if and only if every string of the
    exclude list is a substring of its name. *)
Theorem exclude_removes_iff_all_substrings
        (prompts : list Token) (excludes : list string) :
  excludes <> [] ->
  filters.exclude prompts excludes
  = List.filter
      (fun p => negb (forallb (fun e => str_in e (name p)) excludes)) prompts
  /\ forall t, In t prompts ->
       (~ In t (filters.exclude prompts excludes)
        <-> forall e, In e excludes -> is_substring e (name t)).
Proof.
  intros _. split; [apply exclude_as_filter|].
  intros t Ht. rewrite exclude_as_filter, filter_In.
  split.
  - intros Hnot e He. apply str_in_is_substring.
    destruct (forallb (fun e => str_in e (name t)) excludes) eqn:Hall.
    + rewrite forallb_forall in Hall. now apply Hall.
    + exfalso. apply Hnot. now split.
  - intros Hall [_ Hneg].
    assert (forallb (fun e => str_in e (name t)) excludes = true) as H.
    { apply forallb_forall. intros e He. apply str_in_is_substring. now apply Hall. }
    rewrite H in Hneg. discriminate.
Qed.

Lemma exclude_removes_iff_all_substrings_witness :
  ["white"; "red"] <> []
  /\ (filters.exclude white_hair_thighhighs ["white"; "red"]
      = List.filter
          (fun p => negb (forallb (fun e => str_in e (name p)) ["white"; "red"]))
          white_hair_thighhighs
      /\ forall t, In t white_hair_thighhighs ->
           (~ In t (filters.exclude white_hair_thighhighs ["white"; "red"])
            <-> forall e, In e ["white"; "red"] -> is_substring e (name t))).
Proof.
  split; [discriminate|].
  apply (exclude_removes_iff_all_substrings white_hair_thighhighs ["white"; "red"]).
  discriminate.
Defined.

(** ** [Commands.get_pipeline] *)

Section PipelineFacts.

Variable command_id : CommandClass -> string.

Local Abbreviation get_pipeline := (commands.get_pipeline command_id).
Local Abbreviation command_map := (commands.command_map command_id).
Local Abbreviation command_ids := (commands.command_ids command_id).

(** C5.  With the parser V2 selected and a filter whose identifier is one of
    the command identifiers, [get_pipeline] raises [NotImplementedError]: no
    pipeline is returned and nothing is logged, so no line is parsed and no
    command is built or executed. *)
Theorem parser_v2_with_filter_rejected (self : commands.Commands) (f : string) :
  commands.use_parser_v2 self = true ->
  commands.filter self = Some f ->
  In f command_ids ->
  get_pipeline self
  = ([], Raise (NotImplementedError
                  ("the '" ++ f ++ "' command is not available "
                   ++ "when using parse_v2."))).
Proof.
  intros Hv2 Hf Hin. apply seq_in_In in Hin.
  unfold commands.get_pipeline.
  rewrite Hv2, Hf. cbn [commands.filter_in]. rewrite Hin. reflexivity.
Qed.

(** C8.  With a negative rounding precision [get_pipeline] raises, whatever
    the filter and the parser are: no pipeline is returned, so no command
    runs on any token. *)
Theorem negative_roundup_rejected (self : commands.Commands) :
  (commands.roundup self < 0)%Z ->
  exists log e, get_pipeline self = (log, Raise e).
Proof.
  intros Hneg. apply Z.ltb_lt in Hneg.
  unfold commands.get_pipeline, RoundUpCommand_init.
  rewrite Hneg.
  destruct (commands.use_parser_v2 self);
    [destruct (commands.filter_in _ _)|];
    cbn; eauto.
Qed.

(** C1, as the code has it.  In every pipeline that [get_pipeline] returns
    the rounding command is the first command; nothing follows it when no
    filter is selected, and otherwise the command built by the closure
    registered under the selected identifier follows it, and is the last. *)
Theorem rounding_appended_first
        (self : commands.Commands) (log : list LogRecord)
        (pipeline : common.PromptPipeline) :
  get_pipeline self = (log, Ok pipeline) ->
  exists rest,
    common.commands pipeline = RoundUp (commands.roundup self) :: rest
    /\ match commands.filter self with
       | None => rest = []
       | Some f =>
           exists lambd,
             PyDict.get (command_map self) f = Some lambd
             /\ rest = [lambd tt]
       end.
Proof.
  unfold commands.get_pipeline, RoundUpCommand_init.
  destruct (commands.roundup self <? 0)%Z;
    (destruct (commands.use_parser_v2 self);
     [destruct (commands.filter_in _ _)|]);
    destruct (commands.filter self) as [f|];
    try destruct (PyDict.get _ f) as [lambd|];
    cbn; intros H; try discriminate;
    injection H as _ <-; cbn; eauto.
Qed.

Lemma NoDup_map_injective {A B : Type} (f : A -> B) (l : list A) :
  NoDup (map f l) ->
  forall a b, In a l -> In b l -> f a = f b -> a = b.
Proof.
  induction l as [|x l IH]; simpl; intros Hnd a b Ha Hb Heq; [contradiction|].
  inversion Hnd as [|? ? Hnotin Hnd']; subst.
  destruct Ha as [->|Ha], Hb as [->|Hb].
  - reflexivity.
  - exfalso. apply Hnotin. rewrite Heq. now apply in_map.
  - exfalso. apply Hnotin. rewrite <- Heq. now apply in_map.
  - now apply IH.
Qed.

Lemma all_command_classes (c : CommandClass) : In c commands.command_classes.
Proof. destruct c; simpl; tauto. Qed.

Lemma command_id_eqb (a b : CommandClass) :
  NoDup command_ids ->
  a <> b -> String.eqb (command_id a) (command_id b) = false.
Proof.
  intros Hnd Hab. apply String.eqb_neq. intros Heq. apply Hab.
  apply (NoDup_map_injective command_id commands.command_classes Hnd);
    auto using all_command_classes.
Qed.

Ltac decide_command_ids Hnd :=
  repeat first
    [ rewrite String.eqb_refl
    | rewrite (command_id_eqb _ _ Hnd) by discriminate ].

(** What the registry holds under the identifier of each class, when the
    identifiers are pairwise distinct. *)
Lemma command_map_lookup (self : commands.Commands) (c : CommandClass) :
  NoDup command_ids ->
  PyDict.get (command_map self) (command_id c)
  = match c with
    | ExcludeCommand => Some (fun _ => Exclude (commands.exclude self))
    | MaskCommand =>
        Some (fun _ => Mask (commands.mask self) (commands.replace_to self))
    | RandomCommand => Some (fun _ => Random (commands.seed self))
    | ResetCommand => Some (fun _ => Reset (commands.value self))
    | RoundUpCommand =>
        Some (fun _ => Similar (commands.similar_method self)
                               (commands.reverse self))
    | SimilarCommand =>
        Some (fun _ => SortAll (commands.sort_all_method self)
                               (commands.reverse self))
    | SortAllCommand => Some (fun _ => Sort (commands.reverse self))
    | SortCommand => Some (fun _ => Unique (commands.reverse self))
    | UniqueCommand => None
    end.
Proof.
  intros Hnd.
  unfold commands.command_map, commands.command_ids, commands.command_classes,
    commands.command_funcs, zip, PyDict.of_pairs, PyDict.empty.
  cbn [map combine fold_left fst snd PyDict.set].
  repeat (progress (cbn [PyDict.set]; decide_command_ids Hnd)).
  destruct c;
    repeat (progress (cbn [PyDict.get]; decide_command_ids Hnd));
    reflexivity.
Qed.

(** C4, as the code has it.  With pairwise distinct identifiers and the
    parser V1, selecting the identifier of a class makes [get_pipeline] append
    a command of the class [registered_class] gives, which is the class itself
    for the first four classes only: the identifier of [SortCommand] builds a
    [UniqueCommand], and the identifier of [UniqueCommand] raises [KeyError]. *)
Theorem registry_shifted_after_reset (self : commands.Commands) (c : CommandClass) :
  NoDup command_ids ->
  commands.use_parser_v2 self = false ->
  (0 <= commands.roundup self)%Z ->
  commands.filter self = Some (command_id c) ->
  match registered_class c with
  | Some built =>
      exists pipeline cmd,
        get_pipeline self = ([], Ok pipeline)
        /\ common.commands pipeline = [RoundUp (commands.roundup self); cmd]
        /\ class_of cmd = built
  | None => get_pipeline self = ([], Raise (KeyError (command_id c)))
  end.
Proof.
  intros Hnd Hv1 Hround Hf.
  apply Z.ltb_ge in Hround.
  unfold commands.get_pipeline, RoundUpCommand_init.
  rewrite Hv1, Hround, Hf, (command_map_lookup self c Hnd).
  destruct c; cbn; try reflexivity;
    (eexists; eexists; split; [reflexivity | split; reflexivity]).
Qed.

End PipelineFacts.

Lemma sample_command_ids_distinct :
  NoDup (commands.command_ids sample_command_id).
Proof.
  repeat constructor; simpl; intuition discriminate.
Qed.

Lemma parser_v2_with_filter_rejected_witness :
  commands.use_parser_v2 (sample_args (Some "mask") true) = true
  /\ commands.filter (sample_args (Some "mask") true) = Some "mask"
  /\ In "mask" (commands.command_ids sample_command_id)
  /\ commands.get_pipeline sample_command_id (sample_args (Some "mask") true)
     = ([], Raise (NotImplementedError
                     ("the '" ++ "mask" ++ "' command is not available "
                      ++ "when using parse_v2."))).
Proof.
  assert (In "mask" (commands.command_ids sample_command_id)) as Hin
    by (simpl; tauto).
  split; [reflexivity|]. split; [reflexivity|]. split; [exact Hin|].
  apply (parser_v2_with_filter_rejected
           sample_command_id (sample_args (Some "mask") true) "mask");
    [reflexivity | reflexivity | exact Hin].
Defined.

Lemma negative_roundup_rejected_witness :
  (commands.roundup
     (commands.mkCommands [] [] "," ", " (-1) "" None false false
                          None None None None) < 0)%Z
  /\ exists log e,
       commands.get_pipeline sample_command_id
         (commands.mkCommands [] [] "," ", " (-1) "" None false false
                              None None None None)
       = (log, Raise e).
Proof.
  split; [reflexivity|].
  apply (negative_roundup_rejected sample_command_id
           (commands.mkCommands [] [] "," ", " (-1) "" None false false
                                None None None None)).
  reflexivity.
Defined.

Lemma rounding_appended_first_witness :
  commands.get_pipeline sample_command_id (sample_args (Some "exclude") false)
  = ([], Ok (common.mkPromptPipeline common.PromptPipelineV1
               (common.mkDelimiter "," ", ") [RoundUp 2; Exclude []]))
  /\ exists rest,
       [RoundUp 2; Exclude []] = RoundUp 2 :: rest
       /\ exists lambd,
            PyDict.get (commands.command_map sample_command_id
                          (sample_args (Some "exclude") false)) "exclude"
            = Some lambd
            /\ rest = [lambd tt].
Proof.
  split; [reflexivity|].
  apply (rounding_appended_first sample_command_id
           (sample_args (Some "exclude") false) []
           (common.mkPromptPipeline common.PromptPipelineV1
              (common.mkDelimiter "," ", ") [RoundUp 2; Exclude []])).
  reflexivity.
Defined.

(** C1 as the claim states it fails: with the filter "exclude" selected the
    pipeline is rounding then exclusion, and rounding is not last. *)
Lemma rounding_not_last_counterexample :
  exists pipeline,
    commands.get_pipeline sample_command_id (sample_args (Some "exclude") false)
    = ([], Ok pipeline)
    /\ common.commands pipeline = [RoundUp 2; Exclude []]
    /\ ~ rounding_last (common.commands pipeline).
Proof.
  eexists. split; [reflexivity|]. split; [reflexivity|].
  intros [front [ndigits H]]. cbn in H.
  destruct front as [|c1 [|c2 [|c3 front]]]; cbn in H; discriminate.
Qed.

Lemma registry_shifted_after_reset_witness :
  NoDup (commands.command_ids sample_command_id)
  /\ commands.use_parser_v2 (sample_args (Some "sort") false) = false
  /\ (0 <= commands.roundup (sample_args (Some "sort") false))%Z
  /\ commands.filter (sample_args (Some "sort") false)
     = Some (sample_command_id SortCommand)
  /\ exists pipeline cmd,
       commands.get_pipeline sample_command_id (sample_args (Some "sort") false)
       = ([], Ok pipeline)
       /\ common.commands pipeline = [RoundUp 2; cmd]
       /\ class_of cmd = UniqueCommand.
Proof.
  split; [exact sample_command_ids_distinct|].
  split; [reflexivity|]. split; [discriminate|]. split; [reflexivity|].
  apply (registry_shifted_after_reset sample_command_id
           (sample_args (Some "sort") false) SortCommand).
  - exact sample_command_ids_distinct.
  - reflexivity.
  - discriminate.
  - reflexivity.
Defined.

(** ** [cli.app] *)

(** C10.  Whatever way the [try] block of [app] ends, [app] ends by raising
    [SystemExit(1)], so the process exits with status 1; this includes the
    block completing without an exception.  An instance of [Exception] raised
    by the block is logged and does not propagate. *)
Theorem app_always_exits_1 :
  (forall body, snd (cli.app body) = cli.Raises (cli.SystemExit 1))
  /\ (forall body, cli.exit_status (snd (cli.app body)) = 1%Z)
  /\ (forall log e,
        cli.app (log, cli.Raises (cli.Exception e))
        = (log ++ [log_exception e], cli.Raises (cli.SystemExit 1)))
  /\ (forall log, cli.app (log, cli.Completes)
                  = (log, cli.Raises (cli.SystemExit 1))).
Proof.
  repeat split; try reflexivity.
Qed.

(** ** The comparisons of floats *)

Lemma Qle_bool_false (x y : Q) : Qle_bool x y = false -> y < x.
Proof.
  intros H. apply Qnot_le_lt. intros Hle. apply Qle_bool_iff in Hle. congruence.
Qed.

(** Boolean comparisons of rationals in the context, as propositions. *)
Ltac rational_facts :=
  repeat match goal with
    | H : negb _ = true |- _ => apply negb_true_iff in H
    | H : negb _ = false |- _ => apply negb_false_iff in H
    | H : _ || _ = true |- _ => apply orb_true_iff in H; destruct H
    | H : _ || _ = false |- _ => apply orb_false_iff in H; destruct H
    | H : Qle_bool _ _ = true |- _ => apply Qle_bool_iff in H
    | H : Qle_bool _ _ = false |- _ => apply Qle_bool_false in H
    | H : Qeq_bool _ _ = true |- _ => apply Qeq_bool_eq in H
    | H : Qeq_bool _ _ = false |- _ => apply Qeq_bool_neq in H
    end.

(** A fact about the comparisons of floats, by cases on the floats. *)
Ltac float_cases :=
  intros;
  repeat match goal with x : pyfloat |- _ => destruct x end;
  unfold float_le in *; cbn in *; try discriminate; try reflexivity;
  rational_facts; try discriminate;
  match goal with
  | |- ?b = _ =>
      destruct b eqn:?; try reflexivity; try discriminate;
      rational_facts; exfalso;
      first [ lra | match goal with H : ~ _ == _ |- _ => apply H; lra end ]
  end.

Lemma float_lt_false_le (a b : pyfloat) :
  is_nan a = false -> is_nan b = false ->
  float_lt a b = false -> float_le b a = true.
Proof. float_cases. Qed.

Lemma float_le_lt_false (a b : pyfloat) :
  float_le b a = true -> float_lt a b = false.
Proof. float_cases. Qed.

Lemma float_lt_le (a b : pyfloat) : float_lt a b = true -> float_le a b = true.
Proof. unfold float_le. now intros ->. Qed.

Lemma float_le_trans (a b c : pyfloat) :
  float_le a b = true -> float_le b c = true -> float_le a c = true.
Proof. float_cases. Qed.

Lemma float_le_refl (a : pyfloat) : is_nan a = false -> float_le a a = true.
Proof. float_cases. Qed.

Lemma float_eq_refl (a : pyfloat) : is_nan a = false -> float_eq a a = true.
Proof. float_cases. Qed.

Lemma float_eq_lt_neq (x y q : pyfloat) :
  float_eq x q = true -> float_lt x y = true -> float_eq y q = false.
Proof. float_cases. Qed.

Lemma float_le_neq_lt (t x : pyfloat) :
  float_le t x = true -> float_eq x t = false -> float_lt t x = true.
Proof. float_cases. Qed.

(** ** [list.sort]: a permutation, stable, and in order without NaN *)

Lemma no_nan_In (l : list Token) (t : Token) :
  no_nan l -> In t l -> is_nan (strength t) = false.
Proof. unfold no_nan. rewrite Forall_forall. auto. Qed.

Lemma no_nan_perm (l l' : list Token) :
  Permutation l l' -> no_nan l -> no_nan l'.
Proof. intros Hperm. apply (Permutation_Forall Hperm). Qed.

Lemma no_nan_filter (f : Token -> bool) (l : list Token) :
  no_nan l -> no_nan (List.filter f l).
Proof.
  unfold no_nan. rewrite !Forall_forall. intros H t Ht.
  apply filter_In in Ht as [Ht _]. now apply H.
Qed.

Lemma filter_none {A : Type} (f : A -> bool) (l : list A) :
  Forall (fun x => f x = false) l -> List.filter f l = [].
Proof.
  induction 1 as [|x l Hx _ IH]; simpl; [reflexivity | now rewrite Hx].
Qed.

Lemma StronglySorted_snoc {A : Type} (R : A -> A -> Prop) (l : list A) (a : A) :
  StronglySorted R l -> Forall (fun y => R y a) l -> StronglySorted R (l ++ [a]).
Proof.
  induction 1 as [|y l Hsorted IH Hall]; intros Hle; simpl.
  - constructor; constructor.
  - inversion Hle as [|? ? Hya Hle']; subst.
    constructor; [now apply IH|].
    apply Forall_app. split; [exact Hall | now constructor].
Qed.

Lemma StronglySorted_rev {A : Type} (R : A -> A -> Prop) (l : list A) :
  StronglySorted R l -> StronglySorted (fun a b => R b a) (rev l).
Proof.
  induction 1 as [|y l Hsorted IH Hall]; simpl; [constructor|].
  apply StronglySorted_snoc; [exact IH|].
  now apply Forall_rev.
Qed.

Lemma StronglySorted_ext {A : Type} (R R' : A -> A -> Prop) (l : list A) :
  (forall a b, R a b -> R' a b) -> StronglySorted R l -> StronglySorted R' l.
Proof.
  intros Himp. induction 1 as [|y l _ IH Hall]; constructor; [exact IH|].
  eapply Forall_impl; [|exact Hall]. intros b. apply Himp.
Qed.

Lemma insert_sorted_perm (x : Token) (l : list Token) :
  Permutation (insert_sorted x l) (x :: l).
Proof.
  induction l as [|y l IH]; simpl; [reflexivity|].
  destruct (strength_lt x y); [|reflexivity].
  rewrite IH. apply perm_swap.
Qed.

(** The sorted part, last element first, stays in descending order. *)
Lemma insert_sorted_in_order (x : Token) (l : list Token) :
  is_nan (strength x) = false -> no_nan l ->
  StronglySorted (in_order true) l ->
  StronglySorted (in_order true) (insert_sorted x l).
Proof.
  intros Hx Hl. induction 1 as [|y l Hsorted IH Hall]; simpl.
  - constructor; constructor.
  - inversion Hl as [|? ? Hy Hl']; subst.
    unfold strength_lt. destruct (float_lt (strength x) (strength y)) eqn:Hxy.
    + constructor; [now apply IH|].
      apply (Permutation_Forall (Permutation_sym (insert_sorted_perm x l))).
      constructor; [|exact Hall].
      unfold in_order. now apply float_lt_le.
    + assert (float_le (strength y) (strength x) = true) as Hyx
        by now apply float_lt_false_le.
      constructor; [now constructor|].
      constructor; [exact Hyx|].
      eapply Forall_impl; [|exact Hall].
      unfold in_order. intros z Hz. now apply (float_le_trans _ (strength y)).
Qed.

(** An element passes only elements of another strength. *)
Lemma insert_sorted_stable (q : pyfloat) (x : Token) (l : list Token) :
  List.filter (has_strength q) (insert_sorted x l)
  = List.filter (has_strength q) [x] ++ List.filter (has_strength q) l.
Proof.
  induction l as [|y l IH];
    [cbn; now destruct (has_strength q x)|].
  cbn [insert_sorted]. unfold strength_lt.
  destruct (float_lt (strength x) (strength y)) eqn:Hxy;
    [|cbn; now destruct (has_strength q x)].
  cbn [List.filter app] in *. rewrite IH.
  destruct (has_strength q x) eqn:Hqx; [|reflexivity].
  unfold has_strength in *.
  now rewrite (float_eq_lt_neq _ _ _ Hqx Hxy).
Qed.

(** The sorted part after the elements of a list were inserted. *)
Lemma stable_sort_snoc (l : list Token) (x : Token) :
  stable_sort (l ++ [x]) = rev (insert_sorted x (rev (stable_sort l))).
Proof.
  unfold stable_sort. now rewrite fold_left_app, rev_involutive.
Qed.

Lemma stable_sort_perm (l : list Token) : Permutation (stable_sort l) l.
Proof.
  induction l as [|x l IH] using rev_ind; [reflexivity|].
  rewrite stable_sort_snoc, <- Permutation_rev, insert_sorted_perm.
  rewrite <- Permutation_rev, IH. apply Permutation_cons_append.
Qed.

Lemma stable_sort_in_order (l : list Token) :
  no_nan l -> StronglySorted (in_order false) (stable_sort l).
Proof.
  induction l as [|x l IH] using rev_ind; [constructor|].
  intros Hl. apply Forall_app in Hl as [Hl Hx]. inversion Hx as [|? ? Hx' _]; subst.
  rewrite stable_sort_snoc.
  apply (StronglySorted_ext (fun a b => in_order true b a)); [now intros a b|].
  apply StronglySorted_rev, insert_sorted_in_order; [exact Hx'| |].
  - apply (no_nan_perm l); [|exact Hl].
    rewrite <- Permutation_rev. symmetry. apply stable_sort_perm.
  - apply (StronglySorted_ext (fun a b => in_order false b a)); [now intros a b|].
    apply StronglySorted_rev, IH, Hl.
Qed.

Lemma stable_sort_stable (q : pyfloat) (l : list Token) :
  List.filter (has_strength q) (stable_sort l) = List.filter (has_strength q) l.
Proof.
  induction l as [|x l IH] using rev_ind; [reflexivity|].
  rewrite stable_sort_snoc, filter_rev, insert_sorted_stable, rev_app_distr.
  rewrite <- !filter_rev, rev_involutive, IH, filter_app. reflexivity.
Qed.

Lemma list_sort_perm (reverse : bool) (l : list Token) :
  Permutation (list_sort reverse l) l.
Proof.
  unfold list_sort. destruct reverse; [|apply stable_sort_perm].
  rewrite <- Permutation_rev, stable_sort_perm. symmetry. apply Permutation_rev.
Qed.

Lemma list_sort_in_order (reverse : bool) (l : list Token) :
  no_nan l -> StronglySorted (in_order reverse) (list_sort reverse l).
Proof.
  intros Hl. unfold list_sort. destruct reverse; [|now apply stable_sort_in_order].
  apply (StronglySorted_rev (in_order false)), stable_sort_in_order.
  now apply Forall_rev.
Qed.

Lemma list_sort_stable (reverse : bool) (q : pyfloat) (l : list Token) :
  List.filter (has_strength q) (list_sort reverse l)
  = List.filter (has_strength q) l.
Proof.
  unfold list_sort. destruct reverse; [|apply stable_sort_stable].
  now rewrite filter_rev, stable_sort_stable, filter_rev, rev_involutive.
Qed.

(** ** [first_seen] and [group_of] *)

Lemma first_seen_In (x : string) (l : list string) :
  In x (first_seen l) <-> In x l.
Proof.
  induction l as [|y l IH]; simpl; [reflexivity|].
  rewrite filter_In, IH, negb_true_iff, String.eqb_neq.
  destruct (String.string_dec y x) as [->|Hne]; intuition congruence.
Qed.

Lemma first_seen_NoDup (l : list string) : NoDup (first_seen l).
Proof.
  induction l as [|y l IH]; simpl; constructor.
  - rewrite filter_In, negb_true_iff, String.eqb_neq. intuition congruence.
  - now apply NoDup_filter.
Qed.

Lemma first_seen_snoc (l : list string) (x : string) :
  first_seen (l ++ [x])
  = if seq_in x l then first_seen l else first_seen l ++ [x].
Proof.
  induction l as [|y l IH]; [reflexivity|].
  cbn [app first_seen]. rewrite IH. unfold seq_in. cbn [existsb].
  fold (seq_in x l). destruct (String.eqb_spec x y) as [->|Hne]; cbn [orb].
  - destruct (seq_in y l); [reflexivity|].
    rewrite filter_app. cbn [List.filter]. rewrite String.eqb_refl. cbn [negb].
    now rewrite app_nil_r.
  - destruct (seq_in x l); [reflexivity|].
    rewrite filter_app. cbn [List.filter].
    apply String.eqb_neq in Hne. rewrite Hne. reflexivity.
Qed.

Lemma group_of_snoc (n : string) (l : list Token) (p : Token) :
  group_of n (l ++ [p])
  = group_of n l ++ (if String.eqb (name p) n then [p] else []).
Proof. unfold group_of. now rewrite filter_app. Qed.

Lemma group_of_absent (n : string) (l : list Token) :
  ~ In n (map name l) -> group_of n l = [].
Proof.
  intros Hnotin. apply filter_none. apply Forall_forall. intros t Ht.
  apply String.eqb_neq. intros Heq. apply Hnotin. subst. now apply in_map.
Qed.

Lemma group_of_present (n : string) (l : list Token) :
  In n (map name l) -> group_of n l <> [].
Proof.
  intros Hin Hnil. apply in_map_iff in Hin as [t [Hname Ht]].
  assert (In t (group_of n l)) as H
    by (apply filter_In; split; [assumption | now apply String.eqb_eq]).
  rewrite Hnil in H. contradiction.
Qed.

(** ** The dict built by [collect_same_prompt] *)

Lemma dict_get_present {V : Type} (g : string -> V) (names : list string) (k : string) :
  In k names -> PyDict.get (map (fun n => (n, g n)) names) k = Some (g k).
Proof.
  induction names as [|a names IH]; simpl; [contradiction|].
  intros Hin. destruct (String.eqb_spec a k) as [->|Hne]; [reflexivity|].
  destruct Hin as [->|Hin]; [contradiction | now apply IH].
Qed.

Lemma dict_get_absent {V : Type} (g : string -> V) (names : list string) (k : string) :
  ~ In k names -> PyDict.get (map (fun n => (n, g n)) names) k = None.
Proof.
  induction names as [|a names IH]; simpl; [reflexivity|].
  intros Hnotin. destruct (String.eqb_spec a k) as [->|Hne]; [tauto|].
  apply IH. tauto.
Qed.

Lemma dict_set_present {V : Type} (g : string -> V) (names : list string)
      (k : string) (v : V) :
  NoDup names -> In k names ->
  PyDict.set (map (fun n => (n, g n)) names) k v
  = map (fun n => (n, if String.eqb n k then v else g n)) names.
Proof.
  induction names as [|a names IH]; simpl; [contradiction|].
  intros Hnd Hin. inversion Hnd as [|? ? Hnotin Hnd']; subst.
  destruct (String.eqb_spec a k) as [->|Hne].
  - f_equal. apply map_ext_in. intros n Hn.
    destruct (String.eqb_spec n k) as [->|_]; [contradiction | reflexivity].
  - f_equal. destruct Hin as [->|Hin]; [contradiction | now apply IH].
Qed.

Lemma dict_set_absent {V : Type} (g : string -> V) (names : list string)
      (k : string) (v : V) :
  ~ In k names ->
  PyDict.set (map (fun n => (n, g n)) names) k v
  = map (fun n => (n, g n)) names ++ [(k, v)].
Proof.
  induction names as [|a names IH]; simpl; [reflexivity|].
  intros Hnotin. destruct (String.eqb_spec a k) as [->|Hne]; [tauto|].
  f_equal. apply IH. tauto.
Qed.

Lemma collect_same_prompt_snoc (l : list Token) (p : Token) :
  filters.collect_same_prompt (l ++ [p])
  = let u := filters.collect_same_prompt l in
    match PyDict.get u (name p) with
    | Some v => PyDict.set u (name p) (v ++ [p])
    | None => PyDict.set u (name p) [p]
    end.
Proof. unfold filters.collect_same_prompt. now rewrite fold_left_app. Qed.

(** The dict has one key per distinct name, in first-seen order, and under
    each key the tokens of that name in their order. *)
Lemma collect_same_prompt_groups (prompts : list Token) :
  filters.collect_same_prompt prompts
  = map (fun n => (n, group_of n prompts)) (first_seen (map name prompts)).
Proof.
  induction prompts as [|p l IH] using rev_ind; [reflexivity|].
  rewrite collect_same_prompt_snoc. cbv zeta. rewrite IH.
  rewrite map_app. cbn [map]. rewrite first_seen_snoc.
  destruct (seq_in (name p) (map name l)) eqn:Hseen.
  - assert (In (name p) (first_seen (map name l))) as Hin
      by (apply first_seen_In; now apply seq_in_In).
    rewrite dict_get_present by exact Hin.
    rewrite dict_set_present by (auto using first_seen_NoDup).
    apply map_ext. intros n. rewrite group_of_snoc.
    destruct (String.eqb_spec n (name p)) as [->|Hne].
    + now rewrite String.eqb_refl.
    + apply not_eq_sym in Hne. apply String.eqb_neq in Hne. rewrite Hne.
      now rewrite app_nil_r.
  - assert (~ In (name p) (map name l)) as Hnotin.
    { intros Hin. apply seq_in_In in Hin. congruence. }
    assert (~ In (name p) (first_seen (map name l))) as Hnotin'
      by now rewrite first_seen_In.
    rewrite dict_get_absent by exact Hnotin'.
    rewrite dict_set_absent by exact Hnotin'.
    rewrite map_app. cbn [map]. f_equal.
    + apply map_ext_in. intros n Hn. rewrite group_of_snoc.
      destruct (String.eqb_spec (name p) n) as [Heq|_];
        [subst; contradiction | now rewrite app_nil_r].
    + rewrite group_of_snoc, String.eqb_refl.
      now rewrite (group_of_absent _ _ Hnotin).
Qed.

(** ** [filters.sort] and [filters.unique] *)

Lemma fold_left_append_all {A : Type} (v acc : list A) :
  fold_left (fun acc item => acc ++ [item]) v acc = acc ++ v.
Proof.
  rewrite <- (map_id v) at 2. apply (fold_left_append_map (fun x => x)).
Qed.

Lemma fold_left_append_each {A B : Type} (f : A -> list B) (l : list A) (acc : list B) :
  fold_left (fun acc x => acc ++ f x) l acc = acc ++ List.concat (map f l).
Proof.
  revert acc; induction l as [|x l IH]; intros acc; simpl.
  - now rewrite app_nil_r.
  - now rewrite IH, app_assoc.
Qed.

Lemma sort_as_concat (prompts : list Token) (reverse : bool) :
  filters.sort prompts reverse
  = List.concat (map (fun n => list_sort reverse (group_of n prompts))
                (first_seen (map name prompts))).
Proof.
  unfold filters.sort, PyDict.items. cbv zeta.
  rewrite collect_same_prompt_groups.
  rewrite (fold_left_ext_eq _ (fun acc kv => acc ++ list_sort reverse (snd kv)))
    by (intros; apply fold_left_append_all).
  rewrite fold_left_append_each, map_map. reflexivity.
Qed.

Lemma Forall2_map_right {A B : Type} (P : A -> B -> Prop) (f : A -> B) (l : list A) :
  (forall x, In x l -> P x (f x)) -> Forall2 P l (map f l).
Proof.
  induction l as [|x l IH]; simpl; intros H; constructor; auto.
Qed.

Lemma Forall2_In_right {A B : Type} (P : A -> B -> Prop) (l : list A) (l' : list B) :
  Forall2 P l l' -> forall y, In y l' -> exists x, In x l /\ P x y.
Proof.
  induction 1 as [|x y l l' Hxy _ IH]; simpl; intros z Hz; [contradiction|].
  destruct Hz as [->|Hz]; [now exists x; auto|].
  destruct (IH z Hz) as [x' [Hx' HP]]. exists x'; auto.
Qed.

(** C7, for strengths that are not NaN.  When no strength of the input is
    NaN, [filters.sort] returns the concatenation, over the distinct names in
    first-seen order, of the group of each name sorted: a permutation of the
    group, in ascending order of strength (descending when [reverse] is set),
    in which the tokens of any one strength keep their original relative
    order.  On [("a",2.0), ("a",1.0), ("b",1.0)] without [reverse] it returns
    [("a",1.0), ("a",2.0), ("b",1.0)]. *)
Theorem sort_groups_stably (prompts : list Token) (reverse : bool) :
  no_nan prompts ->
  (exists sorted_groups,
      filters.sort prompts reverse = List.concat sorted_groups
      /\ Forall2
           (fun n sorted_group =>
              Permutation sorted_group (group_of n prompts)
              /\ StronglySorted (in_order reverse) sorted_group
              /\ forall q, List.filter (has_strength q) sorted_group
                           = List.filter (has_strength q) (group_of n prompts))
           (first_seen (map name prompts)) sorted_groups)
  /\ filters.sort [mkToken "a" 2.0; mkToken "a" 1.0; mkToken "b" 1.0] false
     = [mkToken "a" 1.0; mkToken "a" 2.0; mkToken "b" 1.0].
Proof.
  intros Hnan. split; [|reflexivity].
  exists (map (fun n => list_sort reverse (group_of n prompts))
              (first_seen (map name prompts))).
  split; [apply sort_as_concat|].
  apply Forall2_map_right. intros n _.
  split; [apply list_sort_perm|].
  split; [apply list_sort_in_order; now apply no_nan_filter|].
  intros q. apply list_sort_stable.
Qed.

Lemma no_nan_a2_a1_b1 :
  no_nan [mkToken "a" 2.0; mkToken "a" 1.0; mkToken "b" 1.0].
Proof. repeat constructor. Qed.

Lemma sort_groups_stably_witness :
  no_nan [mkToken "a" 2.0; mkToken "a" 1.0; mkToken "b" 1.0]
  /\ ((exists sorted_groups,
          filters.sort [mkToken "a" 2.0; mkToken "a" 1.0; mkToken "b" 1.0] true
          = List.concat sorted_groups
          /\ Forall2
               (fun n sorted_group =>
                  Permutation sorted_group
                    (group_of n [mkToken "a" 2.0; mkToken "a" 1.0;
                                 mkToken "b" 1.0])
                  /\ StronglySorted (in_order true) sorted_group
                  /\ forall q,
                      List.filter (has_strength q) sorted_group
                      = List.filter (has_strength q)
                          (group_of n [mkToken "a" 2.0; mkToken "a" 1.0;
                                       mkToken "b" 1.0]))
               (first_seen
                  (map name [mkToken "a" 2.0; mkToken "a" 1.0; mkToken "b" 1.0]))
               sorted_groups)
      /\ filters.sort [mkToken "a" 2.0; mkToken "a" 1.0; mkToken "b" 1.0] false
         = [mkToken "a" 1.0; mkToken "a" 2.0; mkToken "b" 1.0]).
Proof.
  split; [exact no_nan_a2_a1_b1|].
  apply (sort_groups_stably
           [mkToken "a" 2.0; mkToken "a" 1.0; mkToken "b" 1.0] true).
  exact no_nan_a2_a1_b1.
Defined.

(** C7 as the claim states it fails on a strength NaN: of three tokens of
    one name with the strengths 2.0, NaN and 1.0 none is [<] the one before
    it, so [filters.sort] returns them as they are, the token of strength 2.0
    before the one of strength 1.0, and the group is not in ascending order. *)
Lemma sort_nan_counterexample :
  filters.sort tokens_with_nan false = tokens_with_nan
  /\ strictly_before false (mkToken "a" 1.0) (mkToken "a" 2.0)
  /\ ~ StronglySorted (in_order false) (filters.sort tokens_with_nan false).
Proof.
  split; [reflexivity|]. split; [reflexivity|].
  intros H. change (filters.sort tokens_with_nan false) with tokens_with_nan in H.
  apply StronglySorted_inv in H as [_ H].
  inversion H as [|? ? Hnan _]. discriminate Hnan.
Qed.

Lemma filter_head_split {A : Type} (f : A -> bool) (l : list A) (t : A) (rest : list A) :
  List.filter f l = t :: rest ->
  exists before after,
    l = before ++ t :: after /\ Forall (fun x => f x = false) before.
Proof.
  induction l as [|x l IH]; simpl; [discriminate|].
  destruct (f x) eqn:Hfx.
  - intros H. injection H as -> _. now exists [], l.
  - intros H. destruct (IH H) as [before [after [-> Hbefore]]].
    exists (x :: before), after. split; [reflexivity | now constructor].
Qed.

Lemma in_order_not_same_strictly (reverse : bool) (t x : Token) :
  in_order reverse t x -> has_strength (strength t) x = false ->
  strictly_before reverse t x.
Proof.
  unfold in_order, strictly_before, has_strength. intros Hle Hneq.
  destruct reverse.
  - apply float_le_neq_lt; [exact Hle|].
    destruct (float_eq (strength t) (strength x)) eqn:E; [|reflexivity].
    revert E Hneq. generalize (strength t) (strength x). float_cases.
  - now apply float_le_neq_lt.
Qed.

(** The head of a sorted group is the first token of the group among those of
    the extreme strength. *)
Lemma list_sort_head (reverse : bool) (g : list Token) (t : Token) (rest : list Token) :
  no_nan g ->
  list_sort reverse g = t :: rest ->
  exists before after,
    g = before ++ t :: after
    /\ (forall x, In x before -> strictly_before reverse t x)
    /\ (forall x, In x after -> in_order reverse t x).
Proof.
  intros Hnan Hsorted.
  assert (is_nan (strength t) = false) as Ht.
  { apply (no_nan_In g); [exact Hnan|].
    apply (Permutation_in _ (list_sort_perm reverse g)).
    rewrite Hsorted. now left. }
  assert (forall x, In x g -> in_order reverse t x) as Hextreme.
  { intros x Hx.
    apply (Permutation_in _ (Permutation_sym (list_sort_perm reverse g))) in Hx.
    pose proof (list_sort_in_order reverse g Hnan) as Hord.
    rewrite Hsorted in Hx, Hord. apply StronglySorted_inv in Hord as [_ Hall].
    destruct Hx as [<-|Hx].
    - unfold in_order. destruct reverse; now apply float_le_refl.
    - rewrite Forall_forall in Hall. now apply Hall. }
  pose proof (list_sort_stable reverse (strength t) g) as Hstable.
  rewrite Hsorted in Hstable. cbn [List.filter] in Hstable.
  unfold has_strength at 1 in Hstable.
  rewrite (float_eq_refl _ Ht) in Hstable.
  symmetry in Hstable.
  destruct (filter_head_split _ _ _ _ Hstable) as [before [after [Hg Hbefore]]].
  exists before, after. split; [exact Hg|]. split.
  - intros x Hx. apply in_order_not_same_strictly.
    + apply Hextreme. rewrite Hg. apply in_or_app. now left.
    + rewrite Forall_forall in Hbefore. now apply Hbefore.
  - intros x Hx. apply Hextreme. rewrite Hg. apply in_or_app. right. now right.
Qed.

Lemma unique_loop (reverse : bool) (groups : list (string * list Token))
      (acc : list Token) :
  Forall (fun kv => snd kv <> []) groups ->
  exists kept,
    fold_left (filters.unique_step reverse) groups (Ok acc) = Ok (acc ++ kept)
    /\ Forall2
         (fun kv t => exists rest, list_sort reverse (snd kv) = t :: rest)
         groups kept.
Proof.
  intros Hall; revert acc; induction Hall as [|kv groups Hkv _ IH]; intros acc.
  - exists []. split; [simpl; now rewrite app_nil_r | constructor].
  - cbn [fold_left filters.unique_step].
    destruct (list_sort reverse (snd kv)) as [|t rest] eqn:Hsorted.
    + exfalso. apply Hkv. apply Permutation_nil.
      rewrite <- Hsorted. apply list_sort_perm.
    + cbn [pop0]. destruct (IH (acc ++ [t])) as [kept [Hfold Hkept]].
      exists (t :: kept). split.
      * rewrite Hfold, <- app_assoc. reflexivity.
      * constructor; [now exists rest | exact Hkept].
Qed.

(** C6, for strengths that are not NaN.  When no strength of the input is
    NaN, [filters.unique] returns, without raising, one token per distinct
    name of the input.  The token kept for a name has the least strength among
    the tokens of that name (the greatest when [reverse] is set), and among
    the tokens of that name and that strength it is the first of the input:
    every token of the name before it differs strictly in strength. *)
Theorem unique_keeps_first_extreme (prompts : list Token) (reverse : bool) :
  no_nan prompts ->
  exists kept,
    filters.unique prompts reverse = Ok kept
    /\ NoDup (map name kept)
    /\ (forall n, In n (map name kept) <-> In n (map name prompts))
    /\ forall t, In t kept ->
         exists before after,
           group_of (name t) prompts = before ++ t :: after
           /\ (forall x, In x before -> strictly_before reverse t x)
           /\ (forall x, In x after -> in_order reverse t x).
Proof.
  intros Hnan.
  unfold filters.unique, PyDict.items. cbv zeta.
  rewrite collect_same_prompt_groups.
  destruct (unique_loop reverse
              (map (fun n => (n, group_of n prompts))
                   (first_seen (map name prompts))) [])
    as [kept [Hfold Hkept]].
  { apply Forall_map, Forall_forall. intros n Hn. cbn [snd].
    apply group_of_present. now apply first_seen_In. }
  exists kept. split; [exact Hfold|].
  assert (Forall2 (fun n t => name t = n
                              /\ exists rest,
                                  list_sort reverse (group_of n prompts) = t :: rest)
                  (first_seen (map name prompts)) kept) as Hheads.
  { remember (first_seen (map name prompts)) as names eqn:E. clear E Hfold.
    revert kept Hkept. induction names as [|n names IH]; intros kept Hkept;
      inversion Hkept as [|? t ? kept' [rest Hrest] Hkept']; subst;
      constructor; auto.
    split; [|now exists rest].
    assert (In t (group_of n prompts)) as Hin.
    { apply (Permutation_in _ (list_sort_perm reverse _)).
      cbn [snd] in Hrest. rewrite Hrest. now left. }
    apply filter_In in Hin as [_ Hname]. now apply String.eqb_eq. }
  assert (map name kept = first_seen (map name prompts)) as Hnames.
  { clear Hfold Hkept. induction Hheads as [|n t names kept' [Hname _] _ IH];
      simpl; [reflexivity | now rewrite Hname, IH]. }
  split; [rewrite Hnames; apply first_seen_NoDup|].
  split; [intros n; rewrite Hnames; apply first_seen_In|].
  intros t Ht.
  destruct (Forall2_In_right _ _ _ Hheads t Ht) as [n [_ [Hname [rest Hrest]]]].
  subst n.
  exact (list_sort_head reverse _ t rest (no_nan_filter _ _ Hnan) Hrest).
Qed.

Lemma unique_keeps_first_extreme_witness :
  no_nan [mkToken "a" 2.0; mkToken "a" 1.0; mkToken "b" 1.0]
  /\ exists kept,
      filters.unique [mkToken "a" 2.0; mkToken "a" 1.0; mkToken "b" 1.0] false
      = Ok kept
      /\ NoDup (map name kept)
      /\ (forall n, In n (map name kept)
                    <-> In n (map name [mkToken "a" 2.0; mkToken "a" 1.0;
                                        mkToken "b" 1.0]))
      /\ forall t, In t kept ->
           exists before after,
             group_of (name t) [mkToken "a" 2.0; mkToken "a" 1.0; mkToken "b" 1.0]
             = before ++ t :: after
             /\ (forall x, In x before -> strictly_before false t x)
             /\ (forall x, In x after -> in_order false t x).
Proof.
  split; [exact no_nan_a2_a1_b1|].
  apply (unique_keeps_first_extreme
           [mkToken "a" 2.0; mkToken "a" 1.0; mkToken "b" 1.0] false).
  exact no_nan_a2_a1_b1.
Defined.

(** C6 as the claim states it fails on a strength NaN: of three tokens of
    one name with the strengths 2.0, NaN and 1.0, [filters.unique] keeps the
    one of strength 2.0, the first of the input, although the token of
    strength 1.0 has the same name and is strictly weaker. *)
Lemma unique_nan_counterexample :
  filters.unique tokens_with_nan false = Ok [mkToken "a" 2.0]
  /\ In (mkToken "a" 1.0) (group_of "a" tokens_with_nan)
  /\ strictly_before false (mkToken "a" 1.0) (mkToken "a" 2.0).
Proof.
  split; [reflexivity|]. split; [|reflexivity].
  right. right. now left.
Qed.

(** The scenario of the spec for [unique]: of two tokens "white hair" with
    the strengths 1.2 and 1.0, the one of strength 1.0 is kept, and the one of
    strength 1.2 when [reverse] is set. *)
Example unique_white_hair :
  filters.unique [mkToken "white hair" 1.2; mkToken "white hair" 1.0] false
    = Ok [mkToken "white hair" 1.0]
  /\ filters.unique [mkToken "white hair" 1.2; mkToken "white hair" 1.0] true
    = Ok [mkToken "white hair" 1.2].
Proof. split; reflexivity. Qed.

(** Of several tokens of one name and the extreme strength, the first of the
    input is kept, with and without [reverse]: the tokens are told apart here
    by the way their strength is written, 2/1 and 4/2. *)
Example unique_first_of_ties :
  filters.unique [mkToken "a" (2#1); mkToken "a" 1; mkToken "a" (4#2)] true
    = Ok [mkToken "a" (2#1)]
  /\ filters.unique [mkToken "a" (2#2); mkToken "a" 3; mkToken "a" (1#1)] false
    = Ok [mkToken "a" (2#2)].
Proof. split; reflexivity. Qed.

(* ================================================================= *)
(** * Further properties of the filters *)

(** ** [filters.mask] *)

Lemma existsb_str_in_iff (excludes : list string) (s : string) :
  existsb (fun e => str_in e s) excludes = true
  <-> exists e, In e excludes /\ is_substring e s.
Proof.
  rewrite existsb_exists. split; intros [e [He Hsub]]; exists e;
    (split; [exact He | now apply str_in_is_substring]).
Qed.

(** [filters.mask] returns as many tokens as it is given, in the same order:
    a token in whose name some exclude string occurs is replaced by its copy
    under the replacement name, and every other token is passed unchanged. *)
Theorem mask_replaces_matching
        (prompts : list Token) (excludes : list string) (replace_to : string) :
  Forall2
    (fun p q =>
       ((exists e, In e excludes /\ is_substring e (name p))
        /\ q = replace p replace_to)
       \/ (~ (exists e, In e excludes /\ is_substring e (name p)) /\ q = p))
    prompts (filters.mask prompts excludes replace_to).
Proof.
  rewrite mask_as_map. apply Forall2_map_right. intros p _.
  destruct (existsb (fun e => str_in e (name p)) excludes) eqn:Hany.
  - left. split; [now apply existsb_str_in_iff | reflexivity].
  - right. split; [|reflexivity].
    intros H. apply existsb_str_in_iff in H. congruence.
Qed.

(** With an empty exclude list [filters.mask] returns its input, whereas
    [filters.exclude] returns no token at all. *)
Theorem mask_empty_excludes (prompts : list Token) (replace_to : string) :
  filters.mask prompts [] replace_to = prompts.
Proof.
  rewrite mask_as_map. cbn [existsb]. apply map_id.
Qed.

(** Masking twice with the same exclude list and replacement is masking
    once, also when an exclude string occurs in the replacement itself. *)
Theorem mask_idempotent
        (prompts : list Token) (excludes : list string) (replace_to : string) :
  filters.mask (filters.mask prompts excludes replace_to) excludes replace_to
  = filters.mask prompts excludes replace_to.
Proof.
  rewrite !mask_as_map, map_map. apply map_ext. intros p.
  destruct (existsb (fun e => str_in e (name p)) excludes) eqn:Hany.
  - cbn [replace name strength].
    now destruct (existsb (fun e => str_in e replace_to) excludes).
  - now rewrite Hany.
Qed.

(** ** [filters.exclude] *)

Lemma filter_idempotent {A : Type} (f : A -> bool) (l : list A) :
  List.filter f (List.filter f l) = List.filter f l.
Proof.
  induction l as [|x l IH]; simpl; [reflexivity|].
  destruct (f x) eqn:Hfx; simpl; [now rewrite Hfx, IH | exact IH].
Qed.

(** Excluding twice with the same exclude list is excluding once. *)
Theorem exclude_idempotent (prompts : list Token) (excludes : list string) :
  filters.exclude (filters.exclude prompts excludes) excludes
  = filters.exclude prompts excludes.
Proof. rewrite !exclude_as_filter. apply filter_idempotent. Qed.

(** With a single exclude string [filters.exclude] removes exactly the tokens
    in whose name the string occurs, and keeps the others in their order. *)
Theorem exclude_single_string (prompts : list Token) (excluded : string) :
  filters.exclude prompts [excluded]
  = List.filter (fun p => negb (str_in excluded (name p))) prompts
  /\ forall t, In t (filters.exclude prompts [excluded])
               <-> In t prompts /\ ~ is_substring excluded (name t).
Proof.
  assert (filters.exclude prompts [excluded]
          = List.filter (fun p => negb (str_in excluded (name p))) prompts) as H.
  { rewrite exclude_as_filter. apply filter_ext. intros p. cbn [forallb].
    now rewrite andb_true_r. }
  split; [exact H|].
  intros t. rewrite H, filter_In, negb_true_iff, <- str_in_is_substring.
  now destruct (str_in excluded (name t)); intuition congruence.
Qed.

(** A longer exclude list never removes more: every token that
    [filters.exclude] keeps for an exclude list is kept for every list that
    contains the strings of that list. *)
Theorem exclude_more_strings_keeps_more
        (prompts : list Token) (excludes excludes' : list string) :
  incl excludes excludes' ->
  forall t, In t (filters.exclude prompts excludes) ->
            In t (filters.exclude prompts excludes').
Proof.
  intros Hincl t. rewrite !exclude_as_filter, !filter_In, !negb_true_iff.
  intros [Ht Hsome]. split; [exact Ht|].
  destruct (forallb (fun e => str_in e (name t)) excludes') eqn:Hall;
    [|reflexivity].
  rewrite forallb_forall in Hall.
  assert (forallb (fun e => str_in e (name t)) excludes = true) as H
    by (apply forallb_forall; intros e He; apply Hall, Hincl, He).
  congruence.
Qed.

Lemma exclude_more_strings_keeps_more_witness :
  incl ["white"] ["white"; "red"]
  /\ In (mkToken "thighhighs" 1.0)
        (filters.exclude white_hair_thighhighs ["white"])
  /\ In (mkToken "thighhighs" 1.0)
        (filters.exclude white_hair_thighhighs ["white"; "red"]).
Proof.
  assert (incl ["white"] ["white"; "red"]) as Hincl
    by (intros e [<-|[]]; now left).
  assert (In (mkToken "thighhighs" 1.0)
             (filters.exclude white_hair_thighhighs ["white"])) as Hin
    by (left; reflexivity).
  split; [exact Hincl|]. split; [exact Hin|].
  apply (exclude_more_strings_keeps_more
           white_hair_thighhighs ["white"] ["white"; "red"] Hincl
           (mkToken "thighhighs" 1.0)).
  exact Hin.
Defined.

(** ** [ExcludeCommand.execute] *)

(** [ExcludeCommand.execute] keeps exactly the tokens whose whole name is not
    an element of the exclude list. *)
Theorem execute_removes_listed_names
        (excludes : list string) (prompt : list Token) (t : Token) :
  In t (ExcludeCommand.execute excludes prompt)
  <-> In t prompt /\ ~ In (name t) excludes.
Proof.
  unfold ExcludeCommand.execute.
  rewrite filter_In, negb_true_iff, <- seq_in_In.
  destruct (seq_in (name t) excludes); intuition congruence.
Qed.

Lemma seq_in_app (x : string) (xs ys : list string) :
  seq_in x (xs ++ ys) = seq_in x xs || seq_in x ys.
Proof. unfold seq_in. apply existsb_app. Qed.

Lemma filter_filter {A : Type} (f g : A -> bool) (l : list A) :
  List.filter f (List.filter g l) = List.filter (fun x => g x && f x) l.
Proof.
  induction l as [|x l IH]; simpl; [reflexivity|].
  destruct (g x); simpl; [destruct (f x); now rewrite IH | exact IH].
Qed.

(** Two exclude commands run one after the other remove what one command
    with both exclude lists removes, whichever of the two runs first. *)
Theorem execute_twice
        (excludes1 excludes2 : list string) (prompt : list Token) :
  ExcludeCommand.execute excludes2 (ExcludeCommand.execute excludes1 prompt)
  = ExcludeCommand.execute (excludes1 ++ excludes2) prompt
  /\ ExcludeCommand.execute excludes2 (ExcludeCommand.execute excludes1 prompt)
     = ExcludeCommand.execute excludes1 (ExcludeCommand.execute excludes2 prompt).
Proof.
  unfold ExcludeCommand.execute. rewrite !filter_filter. split.
  - apply filter_ext. intros t. now rewrite seq_in_app, negb_orb.
  - apply filter_ext. intros t. apply andb_comm.
Qed.

(** With one exclude string, every token that [ExcludeCommand.execute]
    removes is removed by [filters.exclude] as well: a name that equals the
    string contains it. *)
Theorem exclude_single_kept_by_execute
        (prompts : list Token) (excluded : string) (t : Token) :
  In t (filters.exclude prompts [excluded]) ->
  In t (ExcludeCommand.execute [excluded] prompts).
Proof.
  rewrite exclude_as_filter. unfold ExcludeCommand.execute.
  rewrite !filter_In. cbn [forallb seq_in existsb].
  rewrite andb_true_r, orb_false_r, !negb_true_iff.
  intros [Ht Hnot]. split; [exact Ht|].
  destruct (String.eqb_spec (name t) excluded) as [Heq|_]; [|reflexivity].
  assert (str_in excluded (name t) = true) as Hin; [|congruence].
  apply str_in_is_substring. exists "", "". rewrite Heq. simpl.
  clear. induction excluded as [|c s IH]; simpl; [reflexivity | now f_equal].
Qed.

Lemma exclude_single_kept_by_execute_witness :
  In (mkToken "thighhighs" 1.0) (filters.exclude white_hair_thighhighs ["white"])
  /\ In (mkToken "thighhighs" 1.0)
        (ExcludeCommand.execute ["white"] white_hair_thighhighs).
Proof.
  assert (In (mkToken "thighhighs" 1.0)
             (filters.exclude white_hair_thighhighs ["white"])) as H
    by (left; reflexivity).
  split; [exact H|].
  apply (exclude_single_kept_by_execute white_hair_thighhighs "white"). exact H.
Defined.

(** ** [filters.collect_same_prompt] *)

(** Looking a name up in the dict of [collect_same_prompt] gives the tokens of
    that name in their input order when the name occurs in the input, and a
    missing key otherwise. *)
Theorem collect_same_prompt_lookup (prompts : list Token) (n : string) :
  PyDict.get (filters.collect_same_prompt prompts) n
  = if seq_in n (map name prompts) then Some (group_of n prompts) else None.
Proof.
  rewrite collect_same_prompt_groups.
  destruct (seq_in n (map name prompts)) eqn:Hseen.
  - apply (dict_get_present (fun n => group_of n prompts)), first_seen_In.
    now apply seq_in_In.
  - apply (dict_get_absent (fun n => group_of n prompts)).
    rewrite first_seen_In, <- seq_in_In. congruence.
Qed.

(** The keys of the dict are pairwise distinct, and under each key there is
    at least one token and only tokens whose name is the key. *)
Theorem collect_same_prompt_keys (prompts : list Token) :
  NoDup (map fst (PyDict.items (filters.collect_same_prompt prompts)))
  /\ forall k v, In (k, v) (PyDict.items (filters.collect_same_prompt prompts)) ->
       v <> [] /\ forall t, In t v -> name t = k.
Proof.
  unfold PyDict.items. rewrite collect_same_prompt_groups. split.
  - rewrite map_map. cbn [fst]. rewrite map_id. apply first_seen_NoDup.
  - intros k v Hin. apply in_map_iff in Hin as [n [Heq Hn]].
    injection Heq as <- <-. split.
    + apply group_of_present. now apply first_seen_In.
    + intros t Ht. apply filter_In in Ht as [_ Ht]. now apply String.eqb_eq.
Qed.

Lemma filter_orb_disjoint {A : Type} (f g : A -> bool) (l : list A) :
  (forall x, In x l -> f x = true -> g x = false) ->
  Permutation (List.filter (fun x => f x || g x) l)
              (List.filter f l ++ List.filter g l).
Proof.
  induction l as [|x l IH]; intros Hdisj; [reflexivity|].
  assert (Permutation (List.filter (fun x => f x || g x) l)
                      (List.filter f l ++ List.filter g l)) as IH'
    by (apply IH; intros y Hy; apply Hdisj; now right).
  cbn [List.filter]. destruct (f x) eqn:Hfx; cbn [orb].
  - rewrite (Hdisj x (or_introl eq_refl) Hfx). cbn [app]. now constructor.
  - destruct (g x); [|exact IH'].
    rewrite IH'. apply Permutation_middle.
Qed.

Lemma groups_partition (prompts : list Token) (names : list string) :
  NoDup names ->
  Permutation (List.concat (map (fun n => group_of n prompts) names))
              (List.filter (fun t => seq_in (name t) names) prompts).
Proof.
  induction 1 as [|n names Hnotin Hnd IH]; cbn [map List.concat].
  - unfold seq_in. cbn [existsb]. now rewrite (filter_none _ prompts)
      by (apply Forall_forall; reflexivity).
  - rewrite IH. unfold seq_in at 2. cbn [existsb]. fold seq_in.
    symmetry. apply (filter_orb_disjoint
                       (fun t => String.eqb (name t) n)
                       (fun t => seq_in (name t) names)).
    intros t _ Heq. apply String.eqb_eq in Heq. subst n.
    destruct (seq_in (name t) names) eqn:E; [|reflexivity].
    apply seq_in_In in E. contradiction.
Qed.

Lemma filter_all {A : Type} (f : A -> bool) (l : list A) :
  (forall x, In x l -> f x = true) -> List.filter f l = l.
Proof.
  induction l as [|x l IH]; intros H; simpl; [reflexivity|].
  rewrite (H x (or_introl eq_refl)). f_equal. apply IH. intros y Hy.
  apply H. now right.
Qed.

Lemma groups_cover (prompts : list Token) :
  Permutation
    (List.concat (map (fun n => group_of n prompts)
                      (first_seen (map name prompts))))
    prompts.
Proof.
  rewrite groups_partition by apply first_seen_NoDup.
  rewrite filter_all; [reflexivity|].
  intros t Ht. apply seq_in_In, first_seen_In. now apply in_map.
Qed.

(** The groups of the dict, one after the other, hold the tokens of the
    input, each as often as the input does: no token is lost or doubled. *)
Theorem collect_same_prompt_partition (prompts : list Token) :
  Permutation
    (List.concat (map snd (PyDict.items (filters.collect_same_prompt prompts))))
    prompts.
Proof.
  unfold PyDict.items. rewrite collect_same_prompt_groups, map_map.
  cbn [snd]. apply groups_cover.
Qed.

(** ** [filters.sort] *)

Lemma Permutation_concat_map {A B : Type} (f g : A -> list B) (l : list A) :
  (forall x, Permutation (f x) (g x)) ->
  Permutation (List.concat (map f l)) (List.concat (map g l)).
Proof.
  intros H. induction l as [|x l IH]; cbn [map List.concat]; [reflexivity|].
  now apply Permutation_app.
Qed.

(** [filters.sort] returns the tokens of its input, each as often as the
    input has it. *)
Theorem sort_permutation (prompts : list Token) (reverse : bool) :
  Permutation (filters.sort prompts reverse) prompts.
Proof.
  rewrite sort_as_concat.
  rewrite (Permutation_concat_map _ (fun n => group_of n prompts))
    by (intros n; apply list_sort_perm).
  apply groups_cover.
Qed.

Lemma StronglySorted_snoc_inv {A : Type} (R : A -> A -> Prop) (l : list A) (a : A) :
  StronglySorted R (l ++ [a]) ->
  StronglySorted R l /\ Forall (fun y => R y a) l.
Proof.
  induction l as [|y l IH]; cbn [app]; intros H; [split; constructor|].
  apply StronglySorted_inv in H as [Hsorted Hall].
  destruct (IH Hsorted) as [Hl Hla]. apply Forall_app in Hall as [Hyl Hya].
  split; constructor; auto. now inversion Hya.
Qed.

(** An element that is not [<] the last element of the sorted part stays
    where it is. *)
Lemma insert_sorted_last (x : Token) (l : list Token) :
  Forall (fun y => in_order false y x) l -> insert_sorted x (rev l) = x :: rev l.
Proof.
  intros Hall. destruct (rev l) as [|y rest] eqn:Hrev; [reflexivity|].
  cbn [insert_sorted]. unfold strength_lt.
  rewrite float_le_lt_false; [reflexivity|].
  rewrite Forall_forall in Hall. apply (Hall y).
  apply in_rev. rewrite Hrev. now left.
Qed.

Lemma stable_sort_of_sorted (l : list Token) :
  StronglySorted (in_order false) l -> stable_sort l = l.
Proof.
  induction l as [|x l IH] using rev_ind; [reflexivity|].
  intros H. apply StronglySorted_snoc_inv in H as [Hl Hlx].
  rewrite stable_sort_snoc, (IH Hl), (insert_sorted_last x l Hlx).
  cbn [rev]. now rewrite rev_involutive.
Qed.

Lemma list_sort_of_sorted (reverse : bool) (l : list Token) :
  StronglySorted (in_order reverse) l -> list_sort reverse l = l.
Proof.
  unfold list_sort. destruct reverse; [|apply stable_sort_of_sorted].
  intros H. rewrite stable_sort_of_sorted; [apply rev_involutive|].
  apply (StronglySorted_ext (fun a b => in_order true b a)); [now intros a b|].
  now apply StronglySorted_rev.
Qed.

Lemma list_sort_idempotent (reverse : bool) (l : list Token) :
  no_nan l -> list_sort reverse (list_sort reverse l) = list_sort reverse l.
Proof. intros Hl. now apply list_sort_of_sorted, list_sort_in_order. Qed.

Lemma list_sort_nil (reverse : bool) : list_sort reverse [] = [].
Proof. now destruct reverse. Qed.

Lemma list_sort_single (reverse : bool) (t : Token) : list_sort reverse [t] = [t].
Proof. now destruct reverse. Qed.

Lemma list_sort_names (reverse : bool) (g : list Token) (n : string) :
  (forall t, In t g -> name t = n) ->
  forall t, In t (list_sort reverse g) -> name t = n.
Proof.
  intros H t Ht. apply H. now apply (Permutation_in _ (list_sort_perm reverse g)).
Qed.

Lemma group_of_names (n : string) (prompts : list Token) (t : Token) :
  In t (group_of n prompts) -> name t = n.
Proof. intros H. apply filter_In in H as [_ H]. now apply String.eqb_eq. Qed.

(** Blocks of tokens, the block of each name holding tokens of that name
    only: the tokens of one name in their concatenation are its block. *)
Lemma group_of_blocks (f : string -> list Token) (names : list string) (n : string) :
  (forall m t, In t (f m) -> name t = m) ->
  NoDup names ->
  group_of n (List.concat (map f names)) = if seq_in n names then f n else [].
Proof.
  intros Hnames. induction 1 as [|m names Hnotin Hnd IH]; [reflexivity|].
  cbn [map List.concat]. unfold group_of in *. rewrite filter_app, IH.
  unfold seq_in. cbn [existsb]. fold (seq_in n names).
  destruct (String.eqb_spec n m) as [->|Hne]; cbn [orb].
  - destruct (seq_in m names) eqn:E; [apply seq_in_In in E; contradiction|].
    rewrite app_nil_r. apply filter_all. intros t Ht.
    apply String.eqb_eq. now apply Hnames.
  - rewrite filter_none; [reflexivity|].
    apply Forall_forall. intros t Ht. apply String.eqb_neq.
    rewrite (Hnames m t Ht). congruence.
Qed.

Lemma first_seen_skip_block (m : string) (block rest : list string) :
  Forall (eq m) block ->
  List.filter (fun y => negb (String.eqb y m)) (first_seen (block ++ rest))
  = List.filter (fun y => negb (String.eqb y m)) (first_seen rest).
Proof.
  induction 1 as [|x block <- _ IH]; [reflexivity|].
  cbn [app first_seen List.filter]. rewrite String.eqb_refl. cbn [negb].
  now rewrite filter_idempotent.
Qed.

Lemma first_seen_blocks (f : string -> list Token) (names : list string) :
  (forall m, In m names -> f m <> [] /\ forall t, In t (f m) -> name t = m) ->
  NoDup names ->
  first_seen (map name (List.concat (map f names))) = names.
Proof.
  intros Hblocks. induction 1 as [|m names Hnotin Hnd IH]; [reflexivity|].
  cbn [map List.concat]. rewrite map_app.
  destruct (Hblocks m (or_introl eq_refl)) as [Hne Hm].
  destruct (f m) as [|t block] eqn:Hfm; [congruence|].
  cbn [map app first_seen]. rewrite (Hm t (or_introl eq_refl)). f_equal.
  rewrite first_seen_skip_block.
  - rewrite IH by (intros k Hk; apply Hblocks; now right).
    apply filter_all. intros k Hk. apply negb_true_iff, String.eqb_neq.
    congruence.
  - apply Forall_forall. intros k Hk. apply in_map_iff in Hk as [t' [<- Ht']].
    symmetry. apply Hm. now right.
Qed.

Lemma sort_group_of (prompts : list Token) (reverse : bool) (n : string) :
  group_of n (filters.sort prompts reverse)
  = list_sort reverse (group_of n prompts).
Proof.
  rewrite sort_as_concat.
  rewrite (group_of_blocks (fun m => list_sort reverse (group_of m prompts)))
    by (try apply first_seen_NoDup;
        intros m; apply list_sort_names; intros t; apply group_of_names).
  destruct (seq_in n (first_seen (map name prompts))) eqn:E; [reflexivity|].
  rewrite group_of_absent; [now rewrite list_sort_nil|].
  rewrite <- first_seen_In, <- seq_in_In. congruence.
Qed.

Lemma sort_first_seen (prompts : list Token) (reverse : bool) :
  first_seen (map name (filters.sort prompts reverse))
  = first_seen (map name prompts).
Proof.
  rewrite sort_as_concat.
  apply (first_seen_blocks (fun m => list_sort reverse (group_of m prompts)));
    [|apply first_seen_NoDup].
  intros m Hm. split.
  - intros Hnil. rewrite first_seen_In in Hm.
    apply (group_of_present m prompts Hm). apply Permutation_nil.
    rewrite <- Hnil. apply list_sort_perm.
  - apply list_sort_names. intros t. apply group_of_names.
Qed.

(** When no strength is NaN, sorting twice in the same direction is sorting
    once. *)
Theorem sort_idempotent (prompts : list Token) (reverse : bool) :
  no_nan prompts ->
  filters.sort (filters.sort prompts reverse) reverse
  = filters.sort prompts reverse.
Proof.
  intros Hnan.
  rewrite (sort_as_concat (filters.sort prompts reverse)), sort_first_seen.
  rewrite (map_ext _ (fun n => list_sort reverse (group_of n prompts)))
    by (intros n; rewrite sort_group_of;
        apply list_sort_idempotent, no_nan_filter, Hnan).
  symmetry. apply sort_as_concat.
Qed.

Lemma sort_idempotent_witness :
  no_nan [mkToken "a" 2.0; mkToken "a" 1.0; mkToken "b" 1.0]
  /\ filters.sort
       (filters.sort [mkToken "a" 2.0; mkToken "a" 1.0; mkToken "b" 1.0] true)
       true
     = filters.sort [mkToken "a" 2.0; mkToken "a" 1.0; mkToken "b" 1.0] true.
Proof.
  split; [exact no_nan_a2_a1_b1|].
  apply (sort_idempotent
           [mkToken "a" 2.0; mkToken "a" 1.0; mkToken "b" 1.0] true).
  exact no_nan_a2_a1_b1.
Defined.

(** In the output of [filters.sort] the tokens of one name are adjacent, and
    the names come in the order in which the input first has them, whatever
    the direction of the sort. *)
Theorem sort_keeps_names_together (prompts : list Token) (reverse : bool) :
  filters.sort prompts reverse
  = List.concat (map (fun n => group_of n (filters.sort prompts reverse))
                     (first_seen (map name prompts)))
  /\ first_seen (map name (filters.sort prompts reverse))
     = first_seen (map name prompts).
Proof.
  split; [|apply sort_first_seen].
  rewrite (map_ext _ (fun n => list_sort reverse (group_of n prompts)))
    by (intros n; apply sort_group_of).
  apply sort_as_concat.
Qed.

Lemma first_seen_of_NoDup (l : list string) : NoDup l -> first_seen l = l.
Proof.
  induction 1 as [|x l Hnotin _ IH]; [reflexivity|].
  cbn [first_seen]. rewrite IH. f_equal. apply filter_all.
  intros y Hy. apply negb_true_iff, String.eqb_neq. congruence.
Qed.

Lemma group_of_distinct (prompts : list Token) (p : Token) :
  NoDup (map name prompts) -> In p prompts -> group_of (name p) prompts = [p].
Proof.
  induction prompts as [|q l IH]; [contradiction|].
  cbn [map]. intros Hnd Hin. inversion Hnd as [|? ? Hnotin Hnd']; subst.
  unfold group_of in *. cbn [List.filter]. destruct Hin as [->|Hin].
  - rewrite String.eqb_refl. f_equal. apply filter_none, Forall_forall.
    intros t Ht. apply String.eqb_neq. intros Heq. apply Hnotin.
    rewrite <- Heq. now apply in_map.
  - destruct (String.eqb_spec (name q) (name p)) as [Heq|_]; [|now apply IH].
    exfalso. apply Hnotin. rewrite Heq. now apply in_map.
Qed.

Lemma collect_same_prompt_distinct (prompts : list Token) :
  NoDup (map name prompts) ->
  filters.collect_same_prompt prompts = map (fun p => (name p, [p])) prompts.
Proof.
  intros Hnd. rewrite collect_same_prompt_groups, (first_seen_of_NoDup _ Hnd).
  rewrite map_map. apply map_ext_in. intros p Hp.
  now rewrite group_of_distinct.
Qed.

(** A sequence whose tokens have pairwise distinct names is returned
    unchanged by [filters.sort]. *)
Theorem sort_distinct_names (prompts : list Token) (reverse : bool) :
  NoDup (map name prompts) -> filters.sort prompts reverse = prompts.
Proof.
  intros Hnd. rewrite sort_as_concat, (first_seen_of_NoDup _ Hnd), map_map.
  rewrite (map_ext_in _ (fun p => [p])).
  - induction prompts as [|p l IH]; [reflexivity|].
    cbn [map List.concat app]. f_equal. apply IH.
    cbn [map] in Hnd. now inversion Hnd.
  - intros p Hp. now rewrite group_of_distinct, list_sort_single.
Qed.

Lemma sort_distinct_names_witness :
  NoDup (map name white_hair_thighhighs)
  /\ filters.sort white_hair_thighhighs true = white_hair_thighhighs.
Proof.
  assert (NoDup (map name white_hair_thighhighs)) as Hnd
    by (repeat constructor; simpl; intuition discriminate).
  split; [exact Hnd|].
  apply (sort_distinct_names white_hair_thighhighs true). exact Hnd.
Defined.

(** ** [filters.unique] *)

Lemma unique_fold_heads (reverse : bool) (g : string -> list Token)
      (names : list string) (kept acc : list Token) :
  Forall2 (fun n t => exists rest, list_sort reverse (g n) = t :: rest)
          names kept ->
  fold_left (filters.unique_step reverse) (map (fun n => (n, g n)) names) (Ok acc)
  = Ok (acc ++ kept).
Proof.
  intros H; revert acc.
  induction H as [|n t names kept [rest Hhead] _ IH]; intros acc.
  - cbn. now rewrite app_nil_r.
  - cbn [map fold_left filters.unique_step snd]. rewrite Hhead. cbn [pop0].
    rewrite IH, <- app_assoc. reflexivity.
Qed.

Lemma heads_exist (reverse : bool) (g : string -> list Token) (names : list string) :
  (forall n, In n names -> g n <> []) ->
  exists kept,
    Forall2 (fun n t => exists rest, list_sort reverse (g n) = t :: rest)
            names kept.
Proof.
  induction names as [|n names IH]; intros Hne; [exists []; constructor|].
  destruct IH as [kept Hkept]; [intros m Hm; apply Hne; now right|].
  destruct (list_sort reverse (g n)) as [|t rest] eqn:Hsorted.
  - exfalso. apply (Hne n (or_introl eq_refl)). apply Permutation_nil.
    rewrite <- Hsorted. apply list_sort_perm.
  - exists (t :: kept). constructor; [now exists rest | exact Hkept].
Qed.

(** The tokens [unique] keeps: the head of the sorted group of each name. *)
Lemma unique_heads (prompts : list Token) (reverse : bool) :
  exists kept,
    filters.unique prompts reverse = Ok kept
    /\ Forall2
         (fun n t => exists rest,
              list_sort reverse (group_of n prompts) = t :: rest)
         (first_seen (map name prompts)) kept.
Proof.
  destruct (heads_exist reverse (fun n => group_of n prompts)
                        (first_seen (map name prompts))) as [kept Hkept].
  { intros n Hn. apply group_of_present. now rewrite <- first_seen_In. }
  exists kept. split; [|exact Hkept].
  unfold filters.unique, PyDict.items. cbv zeta.
  rewrite collect_same_prompt_groups.
  exact (unique_fold_heads reverse (fun n => group_of n prompts) _ kept []
                           Hkept).
Qed.

Lemma heads_names (reverse : bool) (prompts : list Token)
      (names : list string) (kept : list Token) :
  Forall2 (fun n t => exists rest,
               list_sort reverse (group_of n prompts) = t :: rest)
          names kept ->
  map name kept = names /\ forall t, In t kept -> In t prompts.
Proof.
  induction 1 as [|n t names kept [rest Hhead] _ [IHnames IHin]];
    [split; [reflexivity | contradiction]|].
  assert (In t (group_of n prompts)) as Ht.
  { apply (Permutation_in _ (list_sort_perm reverse _)).
    rewrite Hhead. now left. }
  split.
  - cbn [map]. now rewrite (group_of_names _ _ _ Ht), IHnames.
  - intros t' [<-|Ht']; [|now apply IHin].
    now apply filter_In in Ht as [Ht _].
Qed.

(** [filters.unique] keeps tokens of its input, and returns them in the order
    in which the input first has their names. *)
Theorem unique_first_seen_order (prompts : list Token) (reverse : bool) :
  exists kept,
    filters.unique prompts reverse = Ok kept
    /\ map name kept = first_seen (map name prompts)
    /\ forall t, In t kept -> In t prompts.
Proof.
  destruct (unique_heads prompts reverse) as [kept [Hunique Hheads]].
  exists kept. split; [exact Hunique|].
  exact (heads_names reverse prompts _ kept Hheads).
Qed.

Lemma unique_fold_singletons (reverse : bool) (prompts acc : list Token) :
  fold_left (filters.unique_step reverse)
            (map (fun p => (name p, [p])) prompts) (Ok acc)
  = Ok (acc ++ prompts).
Proof.
  revert acc; induction prompts as [|p l IH]; intros acc.
  - cbn. now rewrite app_nil_r.
  - cbn [map fold_left filters.unique_step snd].
    rewrite list_sort_single. cbn [pop0]. rewrite IH, <- app_assoc. reflexivity.
Qed.

(** A sequence whose tokens have pairwise distinct names is returned
    unchanged by [filters.unique]. *)
Theorem unique_distinct_names (prompts : list Token) (reverse : bool) :
  NoDup (map name prompts) -> filters.unique prompts reverse = Ok prompts.
Proof.
  intros Hnd. unfold filters.unique, PyDict.items. cbv zeta.
  rewrite (collect_same_prompt_distinct _ Hnd).
  apply (unique_fold_singletons reverse prompts []).
Qed.

Lemma unique_distinct_names_witness :
  NoDup (map name white_hair_thighhighs)
  /\ filters.unique white_hair_thighhighs false = Ok white_hair_thighhighs.
Proof.
  assert (NoDup (map name white_hair_thighhighs)) as Hnd
    by (repeat constructor; simpl; intuition discriminate).
  split; [exact Hnd|].
  apply (unique_distinct_names white_hair_thighhighs false). exact Hnd.
Defined.

(** Applying [filters.unique] to its own result changes nothing. *)
Theorem unique_idempotent (prompts : list Token) (reverse : bool) :
  exists kept,
    filters.unique prompts reverse = Ok kept
    /\ filters.unique kept reverse = Ok kept.
Proof.
  destruct (unique_heads prompts reverse) as [kept [Hunique Hheads]].
  exists kept. split; [exact Hunique|].
  assert (NoDup (map name kept)) as Hnd.
  { destruct (heads_names reverse prompts _ kept Hheads) as [-> _].
    apply first_seen_NoDup. }
  unfold filters.unique, PyDict.items. cbv zeta.
  rewrite (collect_same_prompt_distinct _ Hnd).
  apply (unique_fold_singletons reverse kept []).
Qed.

(** [filters.unique] keeps, for each name, the token that [filters.sort] in
    the same direction puts first among the tokens of that name. *)
Theorem unique_keeps_sort_heads (prompts : list Token) (reverse : bool) :
  exists kept,
    filters.unique prompts reverse = Ok kept
    /\ Forall2
         (fun n t => exists rest,
              group_of n (filters.sort prompts reverse) = t :: rest)
         (first_seen (map name prompts)) kept.
Proof.
  destruct (unique_heads prompts reverse) as [kept [Hunique Hheads]].
  exists kept. split; [exact Hunique|].
  eapply Forall2_impl; [|exact Hheads].
  intros n t [rest Hrest]. exists rest. now rewrite sort_group_of.
Qed.

(** When no strength is NaN, sorting before [unique] in the same direction
    does not change what [unique] returns. *)
Theorem unique_after_sort (prompts : list Token) (reverse : bool) :
  no_nan prompts ->
  filters.unique (filters.sort prompts reverse) reverse
  = filters.unique prompts reverse.
Proof.
  intros Hnan.
  destruct (unique_heads prompts reverse) as [kept [Hunique Hheads]].
  rewrite Hunique. unfold filters.unique, PyDict.items. cbv zeta.
  rewrite collect_same_prompt_groups, sort_first_seen.
  refine (unique_fold_heads
            reverse (fun n => group_of n (filters.sort prompts reverse))
            _ kept [] _).
  eapply Forall2_impl; [|exact Hheads].
  intros n t [rest Hrest]. exists rest.
  rewrite sort_group_of, list_sort_idempotent; [exact Hrest|].
  now apply no_nan_filter.
Qed.

Lemma unique_after_sort_witness :
  no_nan [mkToken "a" 2.0; mkToken "a" 1.0; mkToken "b" 1.0]
  /\ filters.unique
       (filters.sort [mkToken "a" 2.0; mkToken "a" 1.0; mkToken "b" 1.0] true)
       true
     = filters.unique [mkToken "a" 2.0; mkToken "a" 1.0; mkToken "b" 1.0] true.
Proof.
  split; [exact no_nan_a2_a1_b1|].
  apply (unique_after_sort
           [mkToken "a" 2.0; mkToken "a" 1.0; mkToken "b" 1.0] true).
  exact no_nan_a2_a1_b1.
Defined.

(* ================================================================= *)
(** * Further properties of [Commands.get_pipeline] *)

Lemma dict_get_set {V : Type} (d : PyDict.dict V) (k' k : string) (v' : V) :
  PyDict.get (PyDict.set d k' v') k
  = if String.eqb k' k then Some v' else PyDict.get d k.
Proof.
  induction d as [|[a w] d IH]; cbn [PyDict.set PyDict.get]; [reflexivity|].
  destruct (String.eqb_spec a k') as [->|Hne]; cbn [PyDict.get].
  - now destruct (String.eqb k' k).
  - rewrite IH. destruct (String.eqb_spec a k) as [->|_]; [|reflexivity].
    apply String.eqb_neq in Hne. rewrite String.eqb_sym in Hne. now rewrite Hne.
Qed.

Lemma dict_of_pairs_keys {V : Type} (pairs : list (string * V)) (k : string) (v : V) :
  PyDict.get (PyDict.of_pairs pairs) k = Some v -> In k (map fst pairs).
Proof.
  unfold PyDict.of_pairs.
  assert (forall d : PyDict.dict V,
             PyDict.get (fold_left (fun d kv => PyDict.set d (fst kv) (snd kv))
                                   pairs d) k = Some v ->
             In k (map fst pairs) \/ PyDict.get d k = Some v) as H.
  { induction pairs as [|[a w] pairs IH]; intros d Hget; [now right|].
    cbn [fold_left fst snd] in Hget. cbn [map fst].
    destruct (IH _ Hget) as [Hin|Hd]; [left; now right|].
    rewrite dict_get_set in Hd.
    destruct (String.eqb_spec a k) as [->|_]; [left; now left | now right]. }
  intros Hget. destruct (H PyDict.empty Hget) as [Hin|Hd];
    [exact Hin | discriminate].
Qed.

Section MorePipelineFacts.

Variable command_id : CommandClass -> string.

Local Abbreviation get_pipeline := (commands.get_pipeline command_id).
Local Abbreviation command_map := (commands.command_map command_id).
Local Abbreviation command_ids := (commands.command_ids command_id).

(** Only command identifiers are keys of the registry. *)
Lemma command_map_keys (self : commands.Commands) (f : string)
      (lambd : unit -> Command) :
  PyDict.get (command_map self) f = Some lambd -> In f command_ids.
Proof.
  intros H. apply dict_of_pairs_keys in H.
  apply in_map_iff in H as [[k w] [<- Hin]].
  now apply in_combine_l in Hin.
Qed.

(** An identifier that is no command identifier raises [KeyError] under the
    parser V1, once the rounding command is built. *)
Theorem unknown_filter_key_error (self : commands.Commands) (f : string) :
  commands.use_parser_v2 self = false ->
  (0 <= commands.roundup self)%Z ->
  commands.filter self = Some f ->
  ~ In f command_ids ->
  get_pipeline self = ([], Raise (KeyError f)).
Proof.
  intros Hv1 Hround Hf Hnotin. apply Z.ltb_ge in Hround.
  unfold commands.get_pipeline, RoundUpCommand_init.
  rewrite Hv1, Hround, Hf.
  destruct (PyDict.get (command_map self) f) as [lambd|] eqn:Hget;
    [|reflexivity].
  exfalso. apply Hnotin. now apply (command_map_keys self f lambd).
Qed.

Lemma parser_v2_filter_raises (self : commands.Commands) (f : string)
      (log : list LogRecord) (pipeline : common.PromptPipeline) :
  commands.use_parser_v2 self = true ->
  commands.filter self = Some f ->
  get_pipeline self <> (log, Ok pipeline).
Proof.
  intros Hv2 Hf. unfold commands.get_pipeline, RoundUpCommand_init.
  rewrite Hv2, Hf. cbn [commands.filter_in].
  destruct (seq_in f command_ids) eqn:Hin; [cbn; discriminate|].
  destruct (PyDict.get (command_map self) f) as [lambd|] eqn:Hget.
  - apply command_map_keys, seq_in_In in Hget. congruence.
  - destruct (commands.roundup self <? 0)%Z; cbn; discriminate.
Qed.

(** Under the parser V2 no filter command is ever appended: a pipeline is
    returned only when no filter is selected, it holds the rounding command
    alone, and the warning "using parser_v2." is logged. *)
Theorem parser_v2_rounds_only
        (self : commands.Commands) (log : list LogRecord)
        (pipeline : common.PromptPipeline) :
  commands.use_parser_v2 self = true ->
  get_pipeline self = (log, Ok pipeline) ->
  commands.filter self = None
  /\ log = [log_warning "using parser_v2."]
  /\ common.pipeline_class pipeline = common.PromptPipelineV2
  /\ common.commands pipeline = [RoundUp (commands.roundup self)].
Proof.
  intros Hv2.
  destruct (commands.filter self) as [f|] eqn:Hf.
  - intros H. exfalso. exact (parser_v2_filter_raises self f log pipeline Hv2 Hf H).
  - unfold commands.get_pipeline, RoundUpCommand_init.
    rewrite Hv2, Hf. cbn [commands.filter_in].
    destruct (commands.roundup self <? 0)%Z; cbn; [discriminate|].
    intros H. injection H as <- <-. repeat split; reflexivity.
Qed.

(** Every pipeline that [get_pipeline] returns has the parser the flag
    selects and the two delimiters of the configuration; the log is the V2
    warning when V2 is selected and empty otherwise. *)
Theorem pipeline_parser_and_delimiter
        (self : commands.Commands) (log : list LogRecord)
        (pipeline : common.PromptPipeline) :
  get_pipeline self = (log, Ok pipeline) ->
  common.pipeline_class pipeline
  = (if commands.use_parser_v2 self
     then common.PromptPipelineV2 else common.PromptPipelineV1)
  /\ common.delimiter pipeline
     = common.mkDelimiter (commands.input_delimiter self)
                          (commands.output_delimiter self)
  /\ log = (if commands.use_parser_v2 self
            then [log_warning "using parser_v2."] else []).
Proof.
  unfold commands.get_pipeline, RoundUpCommand_init.
  destruct (commands.roundup self <? 0)%Z;
    (destruct (commands.use_parser_v2 self);
     [destruct (commands.filter_in _ _)|]);
    destruct (commands.filter self) as [f|];
    try destruct (PyDict.get _ f) as [lambd|];
    cbn; intros H; try discriminate;
    injection H as <- <-; cbn; repeat split; reflexivity.
Qed.

End MorePipelineFacts.

Lemma unknown_filter_key_error_witness :
  commands.use_parser_v2 (sample_args (Some "dedupe") false) = false
  /\ (0 <= commands.roundup (sample_args (Some "dedupe") false))%Z
  /\ commands.filter (sample_args (Some "dedupe") false) = Some "dedupe"
  /\ ~ In "dedupe" (commands.command_ids sample_command_id)
  /\ commands.get_pipeline sample_command_id (sample_args (Some "dedupe") false)
     = ([], Raise (KeyError "dedupe")).
Proof.
  assert (~ In "dedupe" (commands.command_ids sample_command_id)) as Hnotin
    by (simpl; intuition discriminate).
  split; [reflexivity|]. split; [discriminate|]. split; [reflexivity|].
  split; [exact Hnotin|].
  apply (unknown_filter_key_error sample_command_id
           (sample_args (Some "dedupe") false) "dedupe");
    [reflexivity | discriminate | reflexivity | exact Hnotin].
Defined.

Lemma parser_v2_rounds_only_witness :
  commands.use_parser_v2 (sample_args None true) = true
  /\ commands.get_pipeline sample_command_id (sample_args None true)
     = ([log_warning "using parser_v2."],
        Ok (common.mkPromptPipeline common.PromptPipelineV2
              (common.mkDelimiter "," ", ") [RoundUp 2]))
  /\ (commands.filter (sample_args None true) = None
      /\ [log_warning "using parser_v2."] = [log_warning "using parser_v2."]
      /\ common.PromptPipelineV2 = common.PromptPipelineV2
      /\ [RoundUp 2] = [RoundUp (commands.roundup (sample_args None true))]).
Proof.
  split; [reflexivity|]. split; [reflexivity|].
  apply (parser_v2_rounds_only sample_command_id (sample_args None true)
           [log_warning "using parser_v2."]
           (common.mkPromptPipeline common.PromptPipelineV2
              (common.mkDelimiter "," ", ") [RoundUp 2]));
    reflexivity.
Defined.

Lemma pipeline_parser_and_delimiter_witness :
  commands.get_pipeline sample_command_id (sample_args (Some "mask") false)
  = ([], Ok (common.mkPromptPipeline common.PromptPipelineV1
               (common.mkDelimiter "," ", ") [RoundUp 2; Mask [] ""]))
  /\ (common.PromptPipelineV1 = common.PromptPipelineV1
      /\ common.mkDelimiter "," ", " = common.mkDelimiter "," ", "
      /\ @nil LogRecord = []).
Proof.
  split; [reflexivity|].
  apply (pipeline_parser_and_delimiter sample_command_id
           (sample_args (Some "mask") false) []
           (common.mkPromptPipeline common.PromptPipelineV1
              (common.mkDelimiter "," ", ") [RoundUp 2; Mask [] ""])).
  reflexivity.
Defined.
